(** * ag-drift: the per-tick transition of [src/common/Turn.js]

    A shallow embedding of the [Turn] class: the slot reservation
    [getFreeShipSlot], the input queue [addEvents], [addServerEvent] and
    the transition [evolve], followed by the properties the specification
    states about them.

    Conventions of the embedding.
    - JS numbers that carry physical quantities (positions, velocities,
      angles, forces, times, the phase countdown) are rationals [Q]:
      rounding, infinities and NaN of IEEE doubles are not modelled, except
      where the code itself produces and tests NaN (the checkpoint lookup
      and an out-of-range lap timer); neither is the single precision in
      which p2 stores the vectors of a body.  [Math.PI] is the rational that the
      double [Math.PI] denotes.
    - Slot identifiers are [nat]; [checkpoint], [lap] and [currentLaptime]
      are [Z] (the code decrements [lap] below zero).
    - A sparse JS array is a [list (option A)]: [None] is a hole,
      [undefined] or [null].  Writing past the end extends the array.
    - Objects mutated in place ([bodies], the working copy [ships]) are
      threaded through the loops as explicit state.
    - A [TypeError] is [None] in the [option] monad.
    - What [Turn.js] imports but the repository does not ship with it
      ([constants.js], [Ship.js], [PlayerInput.js], the p2 physics engine)
      is a type class of the embedding or a definition modelled from the
      specification, marked as such. *)

From Stdlib Require Import ZArith QArith Qround String List Lia Bool.
From stdpp Require Import base option list numbers strings gmap.

Local Open Scope Z_scope.

(** ** JS values *)

Definition vec2 : Type := Q * Q.

(** [Math.PI], exactly the double's value. *)
Definition Math_PI : Q := 884279719003555 # 281474976710656.

(** An entry of [laptimes]: a number of seconds, or what JS leaves in an
    array cell that was never a number (a hole, [undefined] or [NaN]; all
    three absorb [+=]). *)
Inductive Laptime : Type :=
| Seconds (q : Q)
| NaN.

(** *** Sparse arrays *)

Section SparseArray.
Context {A : Type}.

(** [a[i]], with [undefined] and [null] read as [None]. *)
Definition js_get (a : list (option A)) (i : nat) : option A :=
  mjoin (a !! i).

(** [a[i] = x]: in range the cell is overwritten, past the end the array
    grows and the cells in between are holes. *)
Definition js_set (a : list (option A)) (i : nat) (x : A) : list (option A) :=
  if decide (i < length a)%nat
  then <[i := Some x]> a
  else a ++ replicate (i - length a) None ++ [Some x].

(** [delete a[i]]: the cell becomes a hole, the length is unchanged. *)
Definition js_delete (a : list (option A)) (i : nat) : list (option A) :=
  <[i := None]> a.

End SparseArray.

(** [a[i]] for an index computed as a number: a negative index names no
    element. *)
Definition z_get {A : Type} (a : list A) (i : Z) : option A :=
  if decide (0 <= i) then a !! Z.to_nat i else None.

(** ** PlayerInput (PlayerInput.js) *)

(** Modelled from the spec: [PlayerInput.js] is not among the sources.
    Section 2: "holds per-player control flags (gas, boost, lean-left,
    lean-right, turn-left, turn-right)"; the field names are the ones
    [Turn.js] reads. *)
Record PlayerInput : Type := mkPlayerInput {
  gas : bool;
  boost : bool;
  leanL : bool;
  leanR : bool;
  turnL : bool;
  turnR : bool
}.

(** Modelled from the spec: [new PlayerInput()] is the "fresh zero input
    state" of section 4.3, the "all-false state" of section 4.4. *)
Definition new_PlayerInput : PlayerInput :=
  mkPlayerInput false false false false false false.

(** Modelled from the spec: [new PlayerInput(other)] is a working input
    "derived from the vessel's last input" (section 4.4), a copy. *)
Definition copy_PlayerInput (other : PlayerInput) : PlayerInput :=
  mkPlayerInput (gas other) (boost other) (leanL other) (leanR other)
                (turnL other) (turnR other).

Definition set_turnL (v : bool) (p : PlayerInput) : PlayerInput :=
  mkPlayerInput (gas p) (boost p) (leanL p) (leanR p) v (turnR p).

Definition set_turnR (v : bool) (p : PlayerInput) : PlayerInput :=
  mkPlayerInput (gas p) (boost p) (leanL p) (leanR p) (turnL p) v.

(** The tag of an input event: "one of the control flags" (section 3). *)
Inductive PlayerEventType : Type :=
| GAS | BOOST | LEAN_L | LEAN_R | TURN_L | TURN_R.

#[global] Instance PlayerEventType_eq_dec : EqDecision PlayerEventType.
Proof. solve_decision. Defined.

(** An input event [{type, val}]. *)
Record GameEvent : Type := mkGameEvent {
  ev_type : PlayerEventType;
  ev_val : bool
}.

(** Modelled from the spec: [PlayerInput.applyPlayerEvent] is not among the
    sources.  Section 3: an input event is "a level-set instruction
    (turnLeft := true)": the flag the event names takes the event's
    value, the other flags stay. *)
Definition applyPlayerEvent (p : PlayerInput) (ev : GameEvent) : PlayerInput :=
  match ev_type ev with
  | GAS => mkPlayerInput (ev_val ev) (boost p) (leanL p) (leanR p) (turnL p) (turnR p)
  | BOOST => mkPlayerInput (gas p) (ev_val ev) (leanL p) (leanR p) (turnL p) (turnR p)
  | LEAN_L => mkPlayerInput (gas p) (boost p) (ev_val ev) (leanR p) (turnL p) (turnR p)
  | LEAN_R => mkPlayerInput (gas p) (boost p) (leanL p) (ev_val ev) (turnL p) (turnR p)
  | TURN_L => set_turnL (ev_val ev) p
  | TURN_R => set_turnR (ev_val ev) p
  end.

(** ** Ship (Ship.js): the fields [Turn.js] constructs a ship from *)

Record Ship : Type := mkShip {
  position : vec2;
  velocity : vec2;
  angle : Q;
  username : string;
  color : Z;
  input : PlayerInput;
  checkpoint : Z;
  lap : Z;
  currentLaptime : Z;
  laptimes : list Laptime
}.

Definition set_input (p : PlayerInput) (s : Ship) : Ship :=
  mkShip (position s) (velocity s) (angle s) (username s) (color s) p
         (checkpoint s) (lap s) (currentLaptime s) (laptimes s).

Definition set_lap (n : Z) (s : Ship) : Ship :=
  mkShip (position s) (velocity s) (angle s) (username s) (color s) (input s)
         (checkpoint s) n (currentLaptime s) (laptimes s).

Definition set_currentLaptime (n : Z) (s : Ship) : Ship :=
  mkShip (position s) (velocity s) (angle s) (username s) (color s) (input s)
         (checkpoint s) (lap s) n (laptimes s).

(** ** Server events and the Turn *)

Inductive ServerEventType : Type :=
| SPAWN_PLAYER | DESTROY_PLAYER.

#[global] Instance ServerEventType_eq_dec : EqDecision ServerEventType.
Proof. solve_decision. Defined.

(** A server event [{type, val, username, color}]; [val] is the slot. *)
Record ServerEvent : Type := mkServerEvent {
  sev_type : ServerEventType;
  sev_val : nat;
  sev_username : string;
  sev_color : Z
}.

(** [C.GAME_STATE]. *)
Inductive GameState : Type :=
| IN_PROGRESS | FINISH_COUNTDOWN | RESULTS_SCREEN.

#[global] Instance GameState_eq_dec : EqDecision GameState.
Proof. solve_decision. Defined.

Record Turn : Type := mkTurn {
  ships : list (option Ship);
  events : list (option (list GameEvent));
  serverEvents : list ServerEvent;
  state : GameState;
  counter : Q
}.

(** ** positionForShipId *)

Definition positionForShipId (shipId : nat) : vec2 :=
  let dx := (inject_Z (Z.of_nat shipId) * 3)%Q in
  let dy := if Z.of_nat shipId mod 2 =? 0 then 0%Q else (-4)%Q in
  (98 + dx, 52 + dy)%Q.

(** ** Turn.getFreeShipSlot *)

(** The [reservedSlots] object after the [forEach]. *)
Definition reservedSlots (t : Turn) : gmap nat bool :=
  foldl (fun reserved serverEvent =>
           if decide (sev_type serverEvent = SPAWN_PLAYER)
           then <[sev_val serverEvent := true]> reserved
           else reserved)
        ∅ (serverEvents t).

(** The condition of the [while]:
    [this.ships[freeSlot] != null || reservedSlots[freeSlot]]. *)
Definition slot_taken (t : Turn) (reserved : gmap nat bool) (freeSlot : nat) : bool :=
  bool_decide (is_Some (js_get (ships t) freeSlot))
  || bool_decide (reserved !! freeSlot = Some true).

(** The [while] loop, [fuel] iterations of it at most: [None] when the
    fuel runs out before the loop ends. *)
Fixpoint free_slot_loop (fuel : nat) (t : Turn) (reserved : gmap nat bool)
    (freeSlot : nat) : option nat :=
  match fuel with
  | O => None
  | S fuel' =>
      if slot_taken t reserved freeSlot
      then free_slot_loop fuel' t reserved (S freeSlot)
      else Some freeSlot
  end.

(** A slot past every vessel and every queued slot: the loop has stopped by
    then. *)
Definition slot_bound (t : Turn) : nat :=
  foldr (fun serverEvent m => Nat.max (S (sev_val serverEvent)) m)
        (length (ships t)) (serverEvents t).

Definition getFreeShipSlot (t : Turn) : option nat :=
  free_slot_loop (S (slot_bound t)) t (reservedSlots t) 0.

(** ** Turn.addEvents *)

(** The [for] loop over [existingEvents] from the last index down to 0,
    here over the reversed queue: the first event of the type of [ev],
    where the loop [break]s. *)
Fixpoint find_related (reversed : list GameEvent) (ev : GameEvent) : option GameEvent :=
  match reversed with
  | [] => None
  | exEv :: earlier =>
      if decide (ev_type exEv = ev_type ev) then Some exEv
      else find_related earlier ev
  end.

(** One round of [evs.forEach]: the queue and the [changed] flag. *)
Definition add_event (acc : list GameEvent * bool) (ev : GameEvent)
    : list GameEvent * bool :=
  let '(existingEvents, changed) := acc in
  match find_related (rev existingEvents) ev with
  | Some exEv =>
      if bool_decide (ev_val exEv = ev_val ev)
      then (existingEvents, changed)
      else (existingEvents ++ [ev], true)
  | None => (existingEvents ++ [ev], true)
  end.

Definition set_events (e : list (option (list GameEvent))) (t : Turn) : Turn :=
  mkTurn (ships t) e (serverEvents t) (state t) (counter t).

(** [addEvents shipId evs]: the turn after the call and the returned flag. *)
Definition addEvents (t : Turn) (shipId : nat) (evs : list GameEvent) : Turn * bool :=
  let existingEvents := default [] (js_get (events t) shipId) in
  let '(existingEvents', changed) := foldl add_event (existingEvents, false) evs in
  (set_events (js_set (events t) shipId existingEvents') t, changed).

(** ** Turn.addServerEvent *)

Definition addServerEvent (t : Turn) (evs : list ServerEvent) : Turn * bool :=
  (mkTurn (ships t) (events t) (serverEvents t ++ evs) (state t) (counter t), true).

(** ** What evolve takes from outside [Turn.js] *)

(** [constants.js], not among the sources: the numeric constants [evolve]
    reads from [C].  [CELL_EDGE] is the edge of a track cell, a positive
    length: the quotient by it is the one of [Q]. *)
Class Constants : Type := {
  FORCE : Q;
  CELL_EDGE : Q;
  FINISH_COUNTDOWN_S : Q;
  RESULTS_SCREEN_S : Q
}.

(** [Ship.js], not among the sources: the finish predicate.  The
    specification leaves its formula to the vessel (section 3), so it is
    any function of the ship's fields. *)
Class ShipMethods : Type := {
  hasFinishedRace : Ship -> bool
}.

(** [Number(cell)] on the text of a track cell, [None] for [NaN].  The
    cells hold checkpoint identifiers, integers by section 3 of the
    specification. *)
Class TrackCells : Type := {
  Number : string -> option Z
}.

(** A [p2.Body], as far as [Turn.js] reads and writes it. *)
Record Body : Type := mkBody {
  body_position : vec2;
  body_velocity : vec2;
  body_angle : Q;
  body_force : vec2;
  body_angularForce : Q
}.

(** The p2 physics engine, a black box: the force and the angular force of
    a body after a force given in its local frame is applied, and the body
    of slot [i] after [world.step(dt)] given all bodies before it.
    [world.addBody] only changes the world, which stays inside
    [world_step]. *)
Class Physics : Type := {
  World : Type;
  local_force : Body -> vec2 -> vec2 * Q;
  world_step : World -> Q -> list (option Body) -> nat -> Body
}.

(** [body.applyForceLocal(f)]: p2 adds the force, turned into the world
    frame, to [body.force] and its torque to [body.angularForce], and
    writes nothing else of the body; the two sums are the engine's
    [local_force]. *)
Definition applyForceLocal `{Physics} (body : Body) (f : vec2) : Body :=
  let '(force, angularForce) := local_force body f in
  mkBody (body_position body) (body_velocity body) (body_angle body)
         force angularForce.

(** A track: rows of cells, each cell a text. *)
Definition Track : Type := list (list string).

(** ** Bodies *)

(** [new p2.Body({mass: 5, position, angle: -Math.PI / 2, fixedRotation: true})]. *)
Definition new_Body (pos : vec2) : Body :=
  mkBody pos (0, 0)%Q (Qopp Math_PI / 2)%Q (0, 0)%Q 0%Q.

Definition resetBody (body : Body) : Body :=
  mkBody (0, 0)%Q (0, 0)%Q 0%Q (0, 0)%Q 0%Q.

(** One round of the first loop of [evolve], at index [i]. *)
Definition create_body (ships : list (option Ship)) (bodies : list (option Body))
    (i : nat) : list (option Body) :=
  match js_get ships i with
  | Some ship =>
      match js_get bodies i with
      | None => js_set bodies i (new_Body (102, 52)%Q)
      | Some body => js_set bodies i (resetBody body)
      end
  | None => bodies
  end.

Definition create_bodies (ships : list (option Ship)) (bodies : list (option Body))
    : list (option Body) :=
  let length := Nat.max (length ships) (length bodies) in
  foldl (create_body ships) bodies (seq 0 length).

(** ** Server events *)

Definition spawn_ship (sev : ServerEvent) (body : Body) : Ship :=
  mkShip (body_position body) (body_velocity body) (body_angle body)
         (sev_username sev) (sev_color sev) new_PlayerInput
         1 0 0 [Seconds 0].

(** One round of [this.serverEvents.forEach], on the working [ships] and
    on [bodies]. *)
Definition consume_server_event
    (acc : list (option Ship) * list (option Body)) (sev : ServerEvent)
    : list (option Ship) * list (option Body) :=
  let '(ships, bodies) := acc in
  let shipId := sev_val sev in
  match sev_type sev with
  | SPAWN_PLAYER =>
      let body := new_Body (positionForShipId shipId) in
      (js_set ships shipId (spawn_ship sev body), js_set bodies shipId body)
  | DESTROY_PLAYER => (js_delete ships shipId, bodies)
  end.

Definition consume_server_events (ships : list (option Ship))
    (bodies : list (option Body)) (sevs : list ServerEvent)
    : list (option Ship) * list (option Body) :=
  foldl consume_server_event (ships, bodies) sevs.

(** ** Player inputs *)

Definition racing (state : GameState) : bool :=
  match state with
  | IN_PROGRESS | FINISH_COUNTDOWN => true
  | RESULTS_SCREEN => false
  end.

Definition set_body_angle (a : Q) (b : Body) : Body :=
  mkBody (body_position b) (body_velocity b) a (body_force b) (body_angularForce b).

(** "init / reset props for determinism". *)
Definition sync_body (ship : Ship) (body : Body) : Body :=
  mkBody (position ship) (velocity ship) (angle ship) (0, 0)%Q 0%Q.

(** "air drag": [vec2.scale(body.velocity, body.velocity, 0.99)]. *)
Definition air_drag (b : Body) : Body :=
  mkBody (body_position b)
         (fst (body_velocity b) * 0.99, snd (body_velocity b) * 0.99)%Q
         (body_angle b) (body_force b) (body_angularForce b).

Section Evolve.
Context `{Constants, ShipMethods, TrackCells, Physics}.

(** The body of the [ships.forEach] callback for a live [ship] and its
    [body]: the resolved input, stored on the ship, and the body as it
    enters the physics step. *)
Definition drive (state : GameState) (playerEvents : list GameEvent)
    (ship : Ship) (body : Body) : Ship * Body :=
  let body := sync_body ship body in
  let input := copy_PlayerInput (input ship) in
  let input := set_turnL false input in
  let input := set_turnR false input in
  let '(input, body) :=
    if negb (hasFinishedRace ship) && racing state then
      let input := foldl applyPlayerEvent input playerEvents in
      let body := if turnL input
                  then set_body_angle (body_angle body + Qopp Math_PI / 2)%Q body
                  else body in
      let body := if turnR input
                  then set_body_angle (body_angle body + Math_PI / 2)%Q body
                  else body in
      let boost := if gas input then (if boost input then 2 else 1) else 0 in
      let body := applyForceLocal body (0, Qopp FORCE * inject_Z boost)%Q in
      let body := if leanR input then applyForceLocal body (FORCE, 0)%Q else body in
      let body := if leanL input then applyForceLocal body (Qopp FORCE, 0)%Q else body in
      (input, body)
    else (new_PlayerInput, body) in
  let body := air_drag body in
  (set_input input ship, body).

(** One round of [ships.forEach] at index [i]; [None] is the [TypeError]
    of reading [body.position] when [bodies[i]] is [undefined]. *)
Definition apply_input (state : GameState) (events : list (option (list GameEvent)))
    (acc : option (list (option Ship) * list (option Body))) (i : nat)
    : option (list (option Ship) * list (option Body)) :=
  match acc with
  | None => None
  | Some (ships, bodies) =>
      match js_get ships i with
      | None => Some (ships, bodies)
      | Some ship =>
          match js_get bodies i with
          | None => None
          | Some body =>
              let playerEvents := default [] (js_get events i) in
              let '(ship', body') := drive state playerEvents ship body in
              Some (<[i := Some ship']> ships, <[i := Some body']> bodies)
          end
      end
  end.

Definition apply_player_inputs (state : GameState)
    (events : list (option (list GameEvent)))
    (ships : list (option Ship)) (bodies : list (option Body))
    : option (list (option Ship) * list (option Body)) :=
  foldl (apply_input state events) (Some (ships, bodies)) (seq 0 (length ships)).

(** ** The physics step *)

(** [world.step(dt / 1000)]: every body of the pool moves to where the
    engine puts it; the pool keeps its holes. *)
Definition step_bodies (world : World) (dt : Q) (bodies : list (option Body))
    : list (option Body) :=
  imap (fun i ob => (fun _ : Body => world_step world (dt / 1000)%Q bodies i) <$> ob)
       bodies.

(** ** Checkpoints and laps *)

(** [(map[ci] || {})[cj] || ' ']. *)
Definition track_cell (map : Track) (ci cj : Z) : string :=
  match z_get (default [] (z_get map ci)) cj with
  | Some c => if decide (c = EmptyString) then " "%string else c
  | None => " "%string
  end.

(** "obtain current checkpoint" for a body: [None] is the [NaN] that makes
    the code keep [oldCheckpoint].  Where [cell] is not [' '] it is
    [map[ci][cj]] itself. *)
Definition cell_checkpoint (map : Track) (body : Body) : option Z :=
  let ci := Qfloor ((snd (body_position body) + CELL_EDGE / 2) / CELL_EDGE)%Q in
  let cj := Qfloor ((fst (body_position body) + CELL_EDGE / 2) / CELL_EDGE)%Q in
  let cell := track_cell map ci cj in
  if decide (cell = " "%string) then None else Number cell.

(** [laptimes[currentLaptime] += d]: in range the entry grows; past the end
    JS stores [NaN] there and leaves holes before it; a negative index
    writes no element. *)
Definition add_laptime (laptimes : list Laptime) (currentLaptime : Z) (d : Q)
    : list Laptime :=
  if decide (currentLaptime < 0) then laptimes
  else
    let i := Z.to_nat currentLaptime in
    match laptimes !! i with
    | Some (Seconds q) => <[i := Seconds (q + d)%Q]> laptimes
    | Some NaN => laptimes
    | None => laptimes ++ replicate (i - length laptimes) NaN ++ [NaN]
    end.

(** The body of the [bodies.map] callback for a live [ship] and its stepped
    [body]: the phase and countdown, the working ship as the callback
    leaves it ([lap] and [currentLaptime] are written on it), and the
    ship of the next turn. *)
Definition next_ship (map : Track) (dt : Q) (st : GameState * Q)
    (ship : Ship) (body : Body) : (GameState * Q) * Ship * Ship :=
  let oldCheckpoint := checkpoint ship in
  let checkpoint' := default oldCheckpoint (cell_checkpoint map body) in
  let currentLaptime' := currentLaptime ship in
  let laptimes' := laptimes ship in
  let laptimes' :=
    if negb (hasFinishedRace ship)
    then add_laptime laptimes' currentLaptime' (dt / 1000)%Q
    else laptimes' in
  let '(st, ship, laptimes') :=
    if checkpoint' =? oldCheckpoint then (st, ship, laptimes')
    else if checkpoint' =? oldCheckpoint - 1 then (st, ship, laptimes')
    else if checkpoint' =? oldCheckpoint + 1 then (st, ship, laptimes')
    else if oldCheckpoint + 1 <? checkpoint' then
      let hadFinishedRace := hasFinishedRace ship in
      let ship := set_lap (lap ship + 1) ship in
      let '(ship, laptimes') :=
        if currentLaptime ship <? lap ship
        then (set_currentLaptime (lap ship) ship, laptimes' ++ [Seconds 0])
        else (ship, laptimes') in
      let st :=
        if negb hadFinishedRace && hasFinishedRace ship
           && bool_decide (fst st = IN_PROGRESS)
        then (FINISH_COUNTDOWN, FINISH_COUNTDOWN_S)
        else st in
      (st, ship, laptimes')
    else if checkpoint' <? oldCheckpoint - 1 then
      (st, set_lap (lap ship - 1) ship, laptimes')
    else (st, ship, laptimes') in
  (st, ship,
   mkShip (body_position body) (body_velocity body) (body_angle body)
          (username ship) (color ship) (input ship)
          checkpoint' (lap ship) (currentLaptime ship) laptimes').

(** [bodies.map] from index [i] on: the phase and countdown and the working
    [ships] are threaded through; a hole or a slot without a ship gives a
    hole. *)
Fixpoint next_ships_from (map : Track) (dt : Q) (i : nat)
    (bodies : list (option Body)) (st : GameState * Q)
    (ships : list (option Ship))
    : (GameState * Q) * list (option Ship) * list (option Ship) :=
  match bodies with
  | [] => (st, ships, [])
  | ob :: bodies' =>
      let '(st1, ships1, n) :=
        match ob, js_get ships i with
        | Some body, Some ship =>
            let '(st1, ship1, n) := next_ship map dt st ship body in
            (st1, <[i := Some ship1]> ships, Some n)
        | _, _ => (st, ships, None)
        end in
      let '(st2, ships2, ns) := next_ships_from map dt (S i) bodies' st1 ships1 in
      (st2, ships2, n :: ns)
  end.

(** ** The game state machine *)

(** [ships.every(ship => !ship || ship.hasFinishedRace())]. *)
Definition every_finished (ships : list (option Ship)) : bool :=
  forallb (fun os => match os with
                     | None => true
                     | Some ship => hasFinishedRace ship
                     end) ships.

(** "game reset" of the ship in slot [i]. *)
Definition reset_ship (i : nat) (ship : Ship) : Ship :=
  mkShip (positionForShipId i) (0, 0)%Q (Qopp Math_PI / 2)%Q
         (username ship) (color ship) (input ship)
         1 0 0 [Seconds 0].

Definition state_machine (st : GameState * Q) (ships nextShips : list (option Ship))
    : Turn :=
  let '(state, counter) := st in
  let counter := inject_Z (Qceiling (counter - 1)) in
  match state with
  | FINISH_COUNTDOWN =>
      if Qeq_bool counter 0 || every_finished ships
      then mkTurn nextShips [] [] RESULTS_SCREEN RESULTS_SCREEN_S
      else mkTurn nextShips [] [] state counter
  | RESULTS_SCREEN =>
      if Qeq_bool counter 0
      then mkTurn (imap (fun i => fmap (reset_ship i)) nextShips) [] []
                  IN_PROGRESS counter
      else mkTurn nextShips [] [] state counter
  | IN_PROGRESS => mkTurn nextShips [] [] state counter
  end.

(** ** Turn.evolve *)

(** [evolve] up to the physics step: the working ships with their resolved
    inputs and the bodies as they enter [world.step]. *)
Definition prepare (t : Turn) (bodies : list (option Body))
    : option (list (option Ship) * list (option Body)) :=
  let bodies := create_bodies (ships t) bodies in
  let '(ships, bodies) := consume_server_events (ships t) bodies (serverEvents t) in
  apply_player_inputs (state t) (events t) ships bodies.

Definition evolve (t : Turn) (map : Track) (world : World)
    (bodies : list (option Body)) (dt : Q) : option Turn :=
  match prepare t bodies with
  | None => None
  | Some (ships, bodies) =>
      let bodies := step_bodies world dt bodies in
      let '(st, ships, nextShips) :=
        next_ships_from map dt 0 bodies (state t, counter t) ships in
      Some (state_machine st ships nextShips)
  end.

End Evolve.

(** ** Notions the statements use *)

(** A queued SPAWN_PLAYER event names slot [k]. *)
Definition spawn_queued (t : Turn) (k : nat) : Prop :=
  exists sev, sev ∈ serverEvents t /\ sev_type sev = SPAWN_PLAYER /\ sev_val sev = k.

(** The most recently queued event of the type of [ev]. *)
Definition last_of_type (queue : list GameEvent) (ev : GameEvent) : option GameEvent :=
  last (filter (fun exEv => ev_type exEv = ev_type ev) queue).

(** Every live ship of [ships] has a body in [bodies]. *)
Definition covered (ships : list (option Ship)) (bodies : list (option Body)) : Prop :=
  forall i ship, js_get ships i = Some ship -> is_Some (js_get bodies i).

(** The vessels [evolve] works on: [this.ships] with the queued server
    events applied. *)
Definition working_ships (t : Turn) : list (option Ship) :=
  (consume_server_events (ships t) [] (serverEvents t)).1.

(** [currentLaptime] is the last index of [laptimes], and [lap] has not
    passed it. *)
Definition lap_timer_ok (ship : Ship) : Prop :=
  0 <= currentLaptime ship
  /\ currentLaptime ship = Z.of_nat (length (laptimes ship)) - 1
  /\ lap ship <= currentLaptime ship.

Definition ships_ok (ships : list (option Ship)) : Prop :=
  forall i ship, js_get ships i = Some ship -> lap_timer_ok ship.

Section Notions.
Context `{Constants, ShipMethods, TrackCells, Physics}.

(** What the input stage leaves in slot [i] of the working ships and of the
    bodies. *)
Definition driven (state : GameState) (events : list (option (list GameEvent)))
    (ships : list (option Ship)) (bodies : list (option Body)) (i : nat)
    : option (Ship * Body) :=
  match js_get ships i, js_get bodies i with
  | Some ship, Some body =>
      Some (drive state (default [] (js_get events i)) ship body)
  | _, _ => None
  end.

(** The input [evolve] stores on a ship: the events of the tick folded
    into the last input with both turn flags cleared, or the all-false
    input when the ship takes no control. *)
Definition resolved_input (state : GameState) (playerEvents : list GameEvent)
    (ship : Ship) : PlayerInput :=
  if negb (hasFinishedRace ship) && racing state
  then foldl applyPlayerEvent
             (set_turnR false (set_turnL false (copy_PlayerInput (input ship))))
             playerEvents
  else new_PlayerInput.

(** The lap times after "increase current lap's time". *)
Definition timed (dt : Q) (ship : Ship) : list Laptime :=
  if negb (hasFinishedRace ship)
  then add_laptime (laptimes ship) (currentLaptime ship) (dt / 1000)%Q
  else laptimes ship.

(** The working ship after "crossed finish line". *)
Definition lapped (ship : Ship) : Ship :=
  let ship' := set_lap (lap ship + 1) ship in
  if currentLaptime ship <? lap ship + 1
  then set_currentLaptime (lap ship + 1) ship'
  else ship'.

(** The stepped body of the ship lies on a cell whose checkpoint is more
    than one above the ship's. *)
Definition crosses_finish_line (map : Track) (ship : Ship) (body : Body) : bool :=
  match cell_checkpoint map body with
  | Some c => checkpoint ship + 1 <? c
  | None => false
  end.

(** The ship finishes the race by this crossing. *)
Definition newly_finished (map : Track) (ship : Ship) (body : Body) : bool :=
  crosses_finish_line map ship body
  && negb (hasFinishedRace ship) && hasFinishedRace (lapped ship).

(** What the [bodies.map] loop of [evolve] starts from: the working ships
    after the input stage and the bodies after [world.step]. *)
Definition detection_input (t : Turn) (world : World)
    (bodies : list (option Body)) (dt : Q)
    : option (list (option Ship) * list (option Body)) :=
  match prepare t bodies with
  | Some (ships3, bodies3) => Some (ships3, step_bodies world dt bodies3)
  | None => None
  end.

(** The working ships as the [bodies.map] loop leaves them, the ones
    [ships.every] of the state machine reads. *)
Definition detected_ships (t : Turn) (map : Track) (dt : Q)
    (ships3 : list (option Ship)) (stepped : list (option Body))
    : list (option Ship) :=
  (next_ships_from map dt 0 stepped (state t, counter t) ships3).1.2.

(** The tick ends the results screen: the match is reset. *)
Definition match_resets (t : Turn) : bool :=
  bool_decide (state t = RESULTS_SCREEN)
  && Qeq_bool (inject_Z (Qceiling (counter t - 1))) 0.

(** [map[ci][cj]] for the cell the body lies on, [None] when the row or the
    cell is absent. *)
Definition grid_cell (map : Track) (body : Body) : option string :=
  let ci := Qfloor ((snd (body_position body) + CELL_EDGE / 2) / CELL_EDGE)%Q in
  let cj := Qfloor ((fst (body_position body) + CELL_EDGE / 2) / CELL_EDGE)%Q in
  match z_get map ci with
  | Some row => z_get row cj
  | None => None
  end.

(** The cell the body lies on is absent or holds no number: it is empty,
    it is the blank [' '] (which the code takes for no data before it
    calls [Number]), or its text is no number. *)
Definition no_number_at (map : Track) (body : Body) : Prop :=
  match grid_cell map body with
  | Some c => c = EmptyString \/ c = " "%string \/ Number c = None
  | None => True
  end.

(** The turns a game goes through: it starts without vessels, events are
    queued, and [evolve] makes the next turn. *)
Inductive reachable : Turn -> Prop :=
| reachable_new (state0 : GameState) (counter0 : Q) :
    reachable (mkTurn [] [] [] state0 counter0)
| reachable_addEvents (t : Turn) (shipId : nat) (evs : list GameEvent) :
    reachable t -> reachable (addEvents t shipId evs).1
| reachable_addServerEvent (t : Turn) (evs : list ServerEvent) :
    reachable t -> reachable (addServerEvent t evs).1
| reachable_evolve (t : Turn) (map : Track) (world : World)
    (bodies : list (option Body)) (dt : Q) (t' : Turn) :
    reachable t -> evolve t map world bodies dt = Some t' -> reachable t'.

End Notions.

(** ** A concrete configuration

    One choice of what [Turn.js] takes from outside, on which the
    statements below are exercised: a race of three laps, cells of edge 4,
    a decimal reading of the cells, and an engine that moves every body as
    a free point of mass 5. *)

Definition example_constants : Constants :=
  {| FORCE := 300; CELL_EDGE := 4; FINISH_COUNTDOWN_S := 10; RESULTS_SCREEN_S := 5 |}.

Definition example_methods : ShipMethods :=
  {| hasFinishedRace := fun ship => 3 <? lap ship |}.

Fixpoint decimal (acc : Z) (s : string) : option Z :=
  match s with
  | EmptyString => Some acc
  | String c s' =>
      let d := Z.of_nat (Ascii.nat_of_ascii c) - 48 in
      if (0 <=? d) && (d <=? 9) then decimal (10 * acc + d) s' else None
  end.

Definition example_cells : TrackCells :=
  {| Number := decimal 0 |}.

(** One step of a free body of mass 5: the force changes the velocity, the
    new velocity the position. *)
Definition integrate (dt : Q) (b : Body) : Body :=
  let vx := (fst (body_velocity b) + fst (body_force b) / 5 * dt)%Q in
  let vy := (snd (body_velocity b) + snd (body_force b) / 5 * dt)%Q in
  mkBody (fst (body_position b) + vx * dt, snd (body_position b) + vy * dt)%Q
         (vx, vy) (body_angle b) (0, 0)%Q 0%Q.

Definition example_physics : Physics :=
  {| World := unit;
     local_force := fun b f =>
       ((fst (body_force b) + fst f, snd (body_force b) + snd f)%Q,
        body_angularForce b);
     world_step := fun _ dt bodies i =>
       integrate dt (default (new_Body (0, 0)%Q) (js_get bodies i)) |}.

(** A track of one row: checkpoints 3, 2, 1, a blank cell and a wall. *)
Definition example_track : Track :=
  [["3"; "2"; "1"; " "; "x"]%string].

(** A vessel at rest in the cell of column [col], on its last lap, with no
    control engaged. *)
Definition example_ship (col : Z) (checkpoint : Z) : Ship :=
  mkShip (inject_Z (4 * col), 0%Q) (0, 0)%Q 0%Q "ann"%string 7
         new_PlayerInput
         checkpoint 3 3 [Seconds 40; Seconds 41; Seconds 42; Seconds 5].

(** The same vessel with gas and turn-left held in its stored input. *)
Definition turning_ship : Ship :=
  set_input (mkPlayerInput true false false false true false) (example_ship 0 1).

Definition example_evolve (t : Turn) (bodies : list (option Body)) : option Turn :=
  @evolve example_constants example_methods example_cells example_physics
          t example_track tt bodies 16.

(** A turn on the results screen, one tick before its end. *)
Definition results_turn : Turn :=
  mkTurn [Some (example_ship 4 5); None; Some (example_ship 0 1)] [] []
         RESULTS_SCREEN 1.

(** Two racers on their last lap: the first reaches checkpoint 3 from
    checkpoint 1, the second stays on a blank cell. *)
Definition last_lap_turn : Turn :=
  mkTurn [Some (example_ship 0 1); Some (example_ship 3 2)] [] [] IN_PROGRESS 0.

(** The same with the first racer alone. *)
Definition solo_turn : Turn :=
  mkTurn [Some (example_ship 0 1)] [] [] IN_PROGRESS 0.

(** A racer whose stored input has turnL set, with a gas and a turn-right
    event queued for the tick. *)
Definition turning_turn : Turn :=
  mkTurn [Some turning_ship]
         [Some [mkGameEvent GAS true; mkGameEvent TURN_R true]] []
         IN_PROGRESS 0.

(** A live vessel in slot 0 and a spawn request for slot 0 already queued. *)
Definition crowded_turn : Turn :=
  mkTurn [Some (example_ship 0 1)] []
         [mkServerEvent SPAWN_PLAYER 0 "bob" 2] IN_PROGRESS 0.

(** A first turn: one player spawned into slot 0 and one tick run. *)
Definition first_turn : option Turn :=
  example_evolve
    (addServerEvent (mkTurn [] [] [] IN_PROGRESS 0)
                    [mkServerEvent SPAWN_PLAYER 0 "ann" 7]).1 [].

(** A turn with gas on and boost off queued for slot 0. *)
Definition queued_turn : Turn :=
  mkTurn [Some (example_ship 0 1)]
         [Some [mkGameEvent GAS false; mkGameEvent BOOST false; mkGameEvent GAS true]]
         [] IN_PROGRESS 0.

(** A reading of the cells that, like [Number] of JS, takes the empty and
    the blank text for 0. *)
Definition blank_is_zero_cells : TrackCells :=
  {| Number := fun s =>
       if decide (s = EmptyString \/ s = " "%string) then Some 0
       else decimal 0 s |}.

(** A racer at checkpoint 2 on the blank cell and one at checkpoint 4 past
    the end of the row. *)
Definition off_track_turn : Turn :=
  mkTurn [Some (example_ship 3 2); Some (example_ship 7 4)] [] [] IN_PROGRESS 0.

(** ** Further notions *)

(** Slot [k] holds no live vessel and no queued SPAWN_PLAYER event names
    it. *)
Definition slot_free (t : Turn) (k : nat) : Prop :=
  js_get (ships t) k = None /\ ~ spawn_queued t k.

(** The queue of input events of a slot, empty when none was recorded. *)
Definition queue_of (t : Turn) (shipId : nat) : list GameEvent :=
  default [] (js_get (events t) shipId).

(** No server event of the list names slot [k]. *)
Definition unnamed (k : nat) (sevs : list ServerEvent) : Prop :=
  forall sev, sev ∈ sevs -> sev_val sev <> k.

(** Every entry of the lap times is a number. *)
Definition all_seconds (laptimes : list Laptime) : Prop :=
  forall i x, laptimes !! i = Some x -> exists q, x = Seconds q.

(** The number of live vessels of a sparse list of ships. *)
Definition live_count (ships : list (option Ship)) : nat :=
  length (filter is_Some ships).

(** The number of queued SPAWN_PLAYER events. *)
Definition spawn_count (sevs : list ServerEvent) : nat :=
  length (filter (fun sev => sev_type sev = SPAWN_PLAYER) sevs).

(** A turn with vessels in slots 0 and 2, a spawn queued for slot 1 and the
    vessel of slot 2 about to be destroyed. *)
Definition busy_turn : Turn :=
  mkTurn [Some (example_ship 0 1); None; Some (example_ship 1 2)] []
         [mkServerEvent SPAWN_PLAYER 1 "bob" 2;
          mkServerEvent DESTROY_PLAYER 2 "" 0] IN_PROGRESS 0.

(** A racer who moves on from checkpoint 3 to the cell of checkpoint 2, and
    one who crosses the line backwards, from checkpoint 3 to the cell of
    checkpoint 1. *)
Definition progress_turn : Turn :=
  mkTurn [Some (example_ship 1 3); Some (example_ship 2 3)] [] [] IN_PROGRESS 0.

(** The finish countdown with one racer still on the track. *)
Definition countdown_turn : Turn :=
  mkTurn [Some (example_ship 1 2)] [] [] FINISH_COUNTDOWN 4.

(** The results screen with three ticks left. *)
Definition waiting_turn : Turn :=
  mkTurn [Some (example_ship 1 2)] [] [] RESULTS_SCREEN 3.

(** A vessel in slot 0 with a destroy and then a spawn queued for the
    slot. *)
Definition respawn_turn : Turn :=
  mkTurn [Some (example_ship 0 1)] []
         [mkServerEvent DESTROY_PLAYER 0 "" 0;
          mkServerEvent SPAWN_PLAYER 0 "cat" 3] IN_PROGRESS 0.

(** A racer who has finished the race and still drifts over the track. *)
Definition finished_turn : Turn :=
  mkTurn [Some (set_lap 4 (example_ship 1 2))] [] [] FINISH_COUNTDOWN 4.

(** The finish countdown after the last vessel has left. *)
Definition deserted_turn : Turn :=
  mkTurn [Some (example_ship 1 2)] []
         [mkServerEvent DESTROY_PLAYER 0 "" 0] FINISH_COUNTDOWN 4.

(** * Properties *)

(** ** Sparse arrays *)

Section SparseArrayFacts.
Context {A : Type}.
Implicit Types (a : list (option A)) (i j : nat) (x : A).

Lemma js_get_Some a i x : js_get a i = Some x <-> a !! i = Some (Some x).
Proof.
  unfold js_get. destruct (a !! i) as [[y|]|]; simpl; split; congruence.
Qed.

Lemma js_get_None a i : js_get a i = None <-> a !! i = Some None \/ a !! i = None.
Proof.
  unfold js_get. destruct (a !! i) as [[y|]|]; simpl; split;
    intuition congruence.
Qed.

Lemma js_get_nil i : js_get (@nil (option A)) i = None.
Proof. unfold js_get. by rewrite lookup_nil. Qed.

Lemma js_get_cons_0 (o : option A) a : js_get (o :: a) 0 = o.
Proof. done. Qed.

Lemma js_get_cons_S (o : option A) a i : js_get (o :: a) (S i) = js_get a i.
Proof. done. Qed.

Lemma js_get_ge a i : (length a <= i)%nat -> js_get a i = None.
Proof. intros Hle. apply js_get_None. right. by apply lookup_ge_None. Qed.

Lemma js_get_lt a i x : js_get a i = Some x -> (i < length a)%nat.
Proof. rewrite js_get_Some. apply lookup_lt_Some. Qed.

Lemma length_js_set a i x : length (js_set a i x) = Nat.max (length a) (S i).
Proof.
  unfold js_set. case_decide.
  - rewrite length_insert. lia.
  - rewrite !length_app, length_replicate. simpl. lia.
Qed.

Lemma js_get_set_eq a i x : js_get (js_set a i x) i = Some x.
Proof.
  apply js_get_Some. unfold js_set. case_decide.
  - by apply list_lookup_insert_eq.
  - rewrite lookup_app_r by lia.
    rewrite lookup_app_r by (rewrite length_replicate; lia).
    rewrite length_replicate.
    by replace (i - length a - (i - length a))%nat with 0%nat by lia.
Qed.

Lemma js_get_set_ne a i j x : i <> j -> js_get (js_set a i x) j = js_get a j.
Proof.
  intros Hne. unfold js_get, js_set. case_decide.
  - by rewrite list_lookup_insert_ne.
  - destruct (decide (j < length a)%nat).
    + by rewrite lookup_app_l.
    + rewrite (lookup_ge_None_2 a j) by lia.
      rewrite lookup_app_r by lia.
      destruct (decide (j - length a < i - length a)%nat).
      * rewrite lookup_app_l by (rewrite length_replicate; lia).
        by rewrite lookup_replicate_2.
      * rewrite lookup_app_r by (rewrite length_replicate; lia).
        rewrite length_replicate.
        rewrite lookup_ge_None_2; [done | simpl; lia].
Qed.

Lemma js_set_id a i x : js_get a i = Some x -> js_set a i x = a.
Proof.
  intros Hget. unfold js_set.
  rewrite decide_True by (by eapply js_get_lt).
  apply list_insert_id. by apply js_get_Some.
Qed.

Lemma js_get_delete_eq a i : js_get (js_delete a i) i = None.
Proof.
  unfold js_get, js_delete. destruct (decide (i < length a)%nat).
  - by rewrite list_lookup_insert_eq.
  - by rewrite list_insert_ge, lookup_ge_None_2 by lia.
Qed.

Lemma js_get_delete_ne a i j : i <> j -> js_get (js_delete a i) j = js_get a j.
Proof. intros Hne. unfold js_get, js_delete. by rewrite list_lookup_insert_ne. Qed.

Lemma js_get_insert_eq a i (o : option A) :
  (i < length a)%nat -> js_get (<[i := o]> a) i = o.
Proof. intros Hlt. unfold js_get. by rewrite list_lookup_insert_eq. Qed.

Lemma js_get_insert_ne a i j (o : option A) :
  i <> j -> js_get (<[i := o]> a) j = js_get a j.
Proof. intros Hne. unfold js_get. by rewrite list_lookup_insert_ne. Qed.

End SparseArrayFacts.

(** ** getFreeShipSlot *)

Lemma reserved_fold_lookup (sevs : list ServerEvent) (acc : gmap nat bool) (k : nat) :
  foldl (fun reserved serverEvent =>
           if decide (sev_type serverEvent = SPAWN_PLAYER)
           then <[sev_val serverEvent := true]> reserved
           else reserved) acc sevs !! k = Some true
  <-> acc !! k = Some true
      \/ exists sev, sev ∈ sevs /\ sev_type sev = SPAWN_PLAYER /\ sev_val sev = k.
Proof.
  revert acc. induction sevs as [|sev sevs IH]; intros acc; simpl.
  - split; [auto | intros [?|(sev & Hin & _)]; [done | by apply elem_of_nil in Hin]].
  - rewrite IH. split.
    + intros [Hacc | (sev' & Hin & Hty & Hval)].
      * case_decide as Hty.
        -- destruct (decide (sev_val sev = k)) as [<-|Hne].
           ++ right. exists sev. split_and!; [left | done | done].
           ++ rewrite lookup_insert_ne in Hacc by done. by left.
        -- by left.
      * right. exists sev'. split_and!; [by right | done | done].
    + intros [Hacc | (sev' & Hin & Hty & Hval)].
      * left. case_decide; [|done].
        destruct (decide (sev_val sev = k)) as [<-|Hne].
        -- by rewrite lookup_insert_eq.
        -- by rewrite lookup_insert_ne.
      * apply elem_of_cons in Hin as [->|Hin].
        -- left. rewrite decide_True by done. subst k. by rewrite lookup_insert_eq.
        -- right. by exists sev'.
Qed.

Lemma reservedSlots_lookup (t : Turn) (k : nat) :
  reservedSlots t !! k = Some true <-> spawn_queued t k.
Proof.
  unfold reservedSlots, spawn_queued. rewrite reserved_fold_lookup.
  rewrite lookup_empty. split; [intros [?|?]; [done|done] | by right].
Qed.

Lemma slot_taken_spec (t : Turn) (k : nat) :
  slot_taken t (reservedSlots t) k = true
  <-> is_Some (js_get (ships t) k) \/ spawn_queued t k.
Proof.
  unfold slot_taken. rewrite orb_true_iff, !bool_decide_eq_true.
  by rewrite reservedSlots_lookup.
Qed.

Lemma slot_bound_ships (t : Turn) : (length (ships t) <= slot_bound t)%nat.
Proof.
  unfold slot_bound. induction (serverEvents t) as [|sev sevs IH]; simpl; lia.
Qed.

Lemma slot_bound_queued (t : Turn) (sev : ServerEvent) :
  sev ∈ serverEvents t -> (sev_val sev < slot_bound t)%nat.
Proof.
  unfold slot_bound. induction (serverEvents t) as [|sev' sevs IH]; simpl.
  - intros Hin. by apply elem_of_nil in Hin.
  - intros [->|Hin]%elem_of_cons; [lia | specialize (IH Hin); lia].
Qed.

Lemma slot_bound_free (t : Turn) :
  slot_taken t (reservedSlots t) (slot_bound t) = false.
Proof.
  apply not_true_iff_false. rewrite slot_taken_spec.
  intros [[s Hs] | (sev & Hin & _ & Hval)].
  - apply js_get_lt in Hs. pose proof (slot_bound_ships t). lia.
  - apply slot_bound_queued in Hin. lia.
Qed.

(** The loop started at [start] with enough fuel to reach a free slot [m]
    stops at the first free slot from [start] on. *)
Lemma free_slot_loop_spec (t : Turn) (reserved : gmap nat bool) (m fuel start : nat) :
  slot_taken t reserved m = false ->
  (start <= m)%nat -> (m - start < fuel)%nat ->
  exists k, free_slot_loop fuel t reserved start = Some k
    /\ (start <= k <= m)%nat
    /\ slot_taken t reserved k = false
    /\ forall j, (start <= j < k)%nat -> slot_taken t reserved j = true.
Proof.
  intros Hfree. revert start.
  induction fuel as [|fuel IH]; intros start Hle Hfuel; [lia|].
  simpl. destruct (slot_taken t reserved start) eqn:Htaken.
  - assert (start <> m) by congruence.
    destruct (IH (S start)) as (k & Hk & Hrange & Hkfree & Hbelow); [lia | lia |].
    exists k. split_and!; [done | lia | lia | done |].
    intros j Hj. destruct (decide (j = start)) as [->|]; [done|].
    apply Hbelow. lia.
  - exists start. split_and!; [done | lia | lia | done |].
    intros j Hj. lia.
Qed.

(** C3. [getFreeShipSlot] returns, for every turn, a slot [k] that holds no
    live vessel and that no queued SPAWN_PLAYER event names, and it is the
    lowest such slot: every slot below [k] holds a live vessel or is named
    by a queued SPAWN_PLAYER event. *)
Theorem getFreeShipSlot_lowest_free (t : Turn) :
  exists k, getFreeShipSlot t = Some k
    /\ js_get (ships t) k = None
    /\ ~ spawn_queued t k
    /\ forall j, (j < k)%nat -> is_Some (js_get (ships t) j) \/ spawn_queued t j.
Proof.
  destruct (free_slot_loop_spec t (reservedSlots t) (slot_bound t)
              (S (slot_bound t)) 0) as (k & Hk & _ & Hfree & Hbelow).
  - apply slot_bound_free.
  - lia.
  - lia.
  - exists k. apply not_true_iff_false in Hfree. rewrite slot_taken_spec in Hfree.
    split_and!.
    + done.
    + destruct (js_get (ships t) k) eqn:Hget; [|done].
      exfalso. apply Hfree. left. by eexists.
    + intros Hq. apply Hfree. by right.
    + intros j Hj. apply slot_taken_spec, Hbelow. lia.
Qed.

(** ** addEvents *)

(** The backward scan of [addEvents] stops at the most recently queued
    event of the type it looks for. *)
Lemma find_related_last (queue : list GameEvent) (ev : GameEvent) :
  find_related (rev queue) ev = last_of_type queue ev.
Proof.
  unfold last_of_type.
  induction queue as [|exEv queue IH] using rev_ind; [done|].
  rewrite rev_unit, filter_app. simpl. rewrite filter_cons, filter_nil.
  case_decide as Hty.
  - by rewrite last_snoc.
  - by rewrite app_nil_r.
Qed.

Lemma add_event_same (queue : list GameEvent) (changed : bool) (ev exEv : GameEvent) :
  last_of_type queue ev = Some exEv -> ev_val exEv = ev_val ev ->
  add_event (queue, changed) ev = (queue, changed).
Proof.
  intros Hlast Hval. unfold add_event. rewrite find_related_last, Hlast.
  by rewrite bool_decide_eq_true_2.
Qed.

(** C6. Recording events, each of which has the type and the value of the
    most recently queued event of its type in the slot's queue, leaves the
    turn (and so the queue) unchanged and returns [false]. *)
Theorem addEvents_same_value_noop (t : Turn) (shipId : nat)
    (queue evs : list GameEvent) :
  js_get (events t) shipId = Some queue ->
  Forall (fun ev => exists exEv,
            last_of_type queue ev = Some exEv /\ ev_val exEv = ev_val ev) evs ->
  addEvents t shipId evs = (t, false).
Proof.
  intros Hqueue Hevs. unfold addEvents. rewrite Hqueue. simpl.
  assert (foldl add_event (queue, false) evs = (queue, false)) as ->.
  { induction Hevs as [|ev evs (exEv & Hlast & Hval) _ IH]; [done|].
    cbn [foldl]. by rewrite (add_event_same _ _ _ exEv). }
  rewrite js_set_id by done. by destruct t.
Qed.

Lemma addEvents_same_value_noop_witness :
  addEvents queued_turn 0 [mkGameEvent GAS true; mkGameEvent BOOST false]
  = (queued_turn, false).
Proof.
  apply (addEvents_same_value_noop queued_turn 0
           [mkGameEvent GAS false; mkGameEvent BOOST false; mkGameEvent GAS true]).
  - reflexivity.
  - repeat constructor.
    + exists (mkGameEvent GAS true). split; reflexivity.
    + exists (mkGameEvent BOOST false). split; reflexivity.
Defined.

(** ** The stages of evolve before the physics step *)

Lemma create_body_keeps (ships : list (option Ship)) (bodies : list (option Body))
    (i j : nat) :
  is_Some (js_get bodies j) -> is_Some (js_get (create_body ships bodies i) j).
Proof.
  intros Hj. unfold create_body.
  destruct (js_get ships i); [|done].
  destruct (js_get bodies i); (destruct (decide (i = j)) as [->|Hne];
    [rewrite js_get_set_eq; by eexists | by rewrite js_get_set_ne]).
Qed.

Lemma create_body_at (ships : list (option Ship)) (bodies : list (option Body))
    (i : nat) (ship : Ship) :
  js_get ships i = Some ship -> is_Some (js_get (create_body ships bodies i) i).
Proof.
  intros Hi. unfold create_body. rewrite Hi.
  destruct (js_get bodies i); rewrite js_get_set_eq; by eexists.
Qed.

Lemma create_bodies_fold_keeps (ships : list (option Ship)) (l : list nat)
    (bodies : list (option Body)) (j : nat) :
  is_Some (js_get bodies j) ->
  is_Some (js_get (foldl (create_body ships) bodies l) j).
Proof.
  revert bodies. induction l as [|i l IH]; intros bodies Hj; [done|].
  simpl. by apply IH, create_body_keeps.
Qed.

Lemma create_bodies_fold_at (ships : list (option Ship)) (l : list nat)
    (bodies : list (option Body)) (i : nat) (ship : Ship) :
  js_get ships i = Some ship -> i ∈ l ->
  is_Some (js_get (foldl (create_body ships) bodies l) i).
Proof.
  intros Hi. revert bodies.
  induction l as [|k l IH]; intros bodies Hin.
  - by apply elem_of_nil in Hin.
  - simpl. apply elem_of_cons in Hin as [<-|Hin].
    + eapply create_bodies_fold_keeps, create_body_at, Hi.
    + by apply IH.
Qed.

(** After the first loop of [evolve] every live ship has a body. *)
Lemma create_bodies_covered (ships : list (option Ship)) (bodies : list (option Body)) :
  covered ships (create_bodies ships bodies).
Proof.
  intros i ship Hi. unfold create_bodies.
  eapply create_bodies_fold_at; [done|].
  apply elem_of_seq. apply js_get_lt in Hi. lia.
Qed.

Lemma consume_server_event_covered (ships : list (option Ship))
    (bodies : list (option Body)) (sev : ServerEvent) :
  covered ships bodies ->
  covered (consume_server_event (ships, bodies) sev).1
          (consume_server_event (ships, bodies) sev).2.
Proof.
  intros Hcov i ship. unfold consume_server_event.
  destruct (sev_type sev); simpl.
  - destruct (decide (sev_val sev = i)) as [->|Hne].
    + rewrite !js_get_set_eq. by eexists.
    + rewrite !js_get_set_ne by done. apply Hcov.
  - destruct (decide (sev_val sev = i)) as [->|Hne].
    + by rewrite js_get_delete_eq.
    + rewrite js_get_delete_ne by done. apply Hcov.
Qed.

Lemma consume_server_events_covered (sevs : list ServerEvent)
    (ships : list (option Ship)) (bodies : list (option Body)) :
  covered ships bodies ->
  covered (consume_server_events ships bodies sevs).1
          (consume_server_events ships bodies sevs).2.
Proof.
  unfold consume_server_events. revert ships bodies.
  induction sevs as [|sev sevs IH]; intros ships bodies Hcov; [done|].
  cbn [foldl].
  pose proof (consume_server_event_covered _ _ sev Hcov) as Hcov'.
  destruct (consume_server_event (ships, bodies) sev) as [ships' bodies'].
  by apply IH.
Qed.

(** The working ships do not depend on the body pool. *)
Lemma consume_server_events_ships (sevs : list ServerEvent)
    (ships : list (option Ship)) (bodies bodies' : list (option Body)) :
  (consume_server_events ships bodies sevs).1
  = (consume_server_events ships bodies' sevs).1.
Proof.
  unfold consume_server_events. revert ships bodies bodies'.
  induction sevs as [|sev sevs IH]; intros ships bodies bodies'; [done|].
  cbn [foldl]. unfold consume_server_event at 2 4.
  destruct (sev_type sev); apply IH.
Qed.

Section PrepareFacts.
Context `{Constants, ShipMethods, TrackCells, Physics}.

Lemma apply_inputs_prefix (state : GameState)
    (events : list (option (list GameEvent)))
    (ships : list (option Ship)) (bodies : list (option Body)) (n : nat) :
  covered ships bodies ->
  exists ships' bodies',
    foldl (apply_input state events) (Some (ships, bodies)) (seq 0 n)
    = Some (ships', bodies')
    /\ length ships' = length ships
    /\ length bodies' = length bodies
    /\ (forall i, js_get ships' i =
                  if decide (i < n)%nat
                  then fst <$> driven state events ships bodies i
                  else js_get ships i)
    /\ (forall i, js_get bodies' i =
                  if decide (i < n)%nat
                  then match driven state events ships bodies i with
                       | Some r => Some r.2
                       | None => js_get bodies i
                       end
                  else js_get bodies i).
Proof.
  intros Hcov. induction n as [|n IH].
  - exists ships, bodies. simpl. split_and!; try done.
  - destruct IH as (ships' & bodies' & Hfold & Hls & Hlb & Hships & Hbodies).
    rewrite seq_S, foldl_app, Hfold. simpl.
    pose proof (Hships n) as Hn. rewrite decide_False in Hn by lia.
    pose proof (Hbodies n) as Hbn. rewrite decide_False in Hbn by lia.
    rewrite Hn, Hbn.
    destruct (js_get ships n) as [ship|] eqn:Hship.
    + destruct (Hcov n ship Hship) as [body Hbody]. rewrite Hbody.
      destruct (drive state (default [] (js_get events n)) ship body)
        as [ship1 body1] eqn:Hdrive.
      eexists _, _. split; [done|].
      rewrite !length_insert. split_and!; [done | done | |].
      * intros i. destruct (decide (i = n)) as [->|Hne].
        -- rewrite js_get_insert_eq by (apply js_get_lt in Hship; lia).
           rewrite decide_True by lia. unfold driven.
           by rewrite Hship, Hbody, Hdrive.
        -- rewrite js_get_insert_ne by done. rewrite Hships.
           repeat case_decide; try lia; done.
      * intros i. destruct (decide (i = n)) as [->|Hne].
        -- rewrite js_get_insert_eq by (apply js_get_lt in Hbody; lia).
           rewrite decide_True by lia. unfold driven.
           by rewrite Hship, Hbody, Hdrive.
        -- rewrite js_get_insert_ne by done. rewrite Hbodies.
           repeat case_decide; try lia; done.
    + eexists _, _. split; [done|]. split_and!; [done | done | |].
      * intros i. rewrite Hships. destruct (decide (i = n)) as [->|Hne].
        -- rewrite decide_False, decide_True by lia. unfold driven.
           by rewrite Hship.
        -- repeat case_decide; try lia; done.
      * intros i. rewrite Hbodies. destruct (decide (i = n)) as [->|Hne].
        -- rewrite decide_False, decide_True by lia. unfold driven.
           by rewrite Hship.
        -- repeat case_decide; try lia; done.
Qed.

(** The input stage raises no [TypeError] when every live ship has a body,
    and it resolves each slot on its own. *)
Lemma apply_player_inputs_spec (state : GameState)
    (events : list (option (list GameEvent)))
    (ships : list (option Ship)) (bodies : list (option Body)) :
  covered ships bodies ->
  exists ships' bodies',
    apply_player_inputs state events ships bodies = Some (ships', bodies')
    /\ length ships' = length ships
    /\ length bodies' = length bodies
    /\ (forall i, js_get ships' i = fst <$> driven state events ships bodies i)
    /\ (forall i, js_get bodies' i =
                  match driven state events ships bodies i with
                  | Some r => Some r.2
                  | None => js_get bodies i
                  end).
Proof.
  intros Hcov.
  destruct (apply_inputs_prefix state events ships bodies (length ships) Hcov)
    as (ships' & bodies' & Hfold & Hls & Hlb & Hships & Hbodies).
  exists ships', bodies'. split_and!; [done | done | done | |].
  - intros i. rewrite Hships. case_decide; [done|].
    unfold driven. by rewrite (js_get_ge ships i) by lia.
  - intros i. rewrite Hbodies. case_decide; [done|].
    unfold driven. by rewrite (js_get_ge ships i) by lia.
Qed.

End PrepareFacts.

(** ** The input stage, slot by slot *)

Section DriveFacts.
Context `{Constants, ShipMethods, TrackCells, Physics}.

Lemma drive_ship (state : GameState) (playerEvents : list GameEvent)
    (ship : Ship) (body : Body) :
  (drive state playerEvents ship body).1
  = set_input (resolved_input state playerEvents ship) ship.
Proof.
  unfold drive, resolved_input.
  by destruct (negb (hasFinishedRace ship) && racing state).
Qed.

Lemma applyForceLocal_angle (body : Body) (f : vec2) :
  body_angle (applyForceLocal body f) = body_angle body.
Proof. unfold applyForceLocal. by destruct (local_force body f). Qed.

(** [prepare] raises no [TypeError]; it leaves in every slot the working
    ship with its resolved input, and a body for every live ship. *)
Lemma prepare_spec (t : Turn) (bodies : list (option Body)) :
  exists ships3 bodies3,
    prepare t bodies = Some (ships3, bodies3)
    /\ covered ships3 bodies3
    /\ (forall i,
          js_get ships3 i =
          (fun ship => set_input (resolved_input (state t)
                                    (default [] (js_get (events t) i)) ship) ship)
            <$> js_get (working_ships t) i)
    /\ forall i ship,
         js_get (working_ships t) i = Some ship ->
         exists body,
           js_get bodies3 i =
           Some (drive (state t) (default [] (js_get (events t) i)) ship body).2.
Proof.
  unfold prepare.
  pose proof (consume_server_events_covered (serverEvents t) (ships t)
                (create_bodies (ships t) bodies)
                (create_bodies_covered (ships t) bodies)) as Hcov.
  pose proof (consume_server_events_ships (serverEvents t) (ships t)
                (create_bodies (ships t) bodies) []) as Hships.
  fold (working_ships t) in Hships.
  destruct (consume_server_events (ships t) (create_bodies (ships t) bodies)
              (serverEvents t)) as [ships2 bodies2].
  simpl in Hcov, Hships. subst ships2.
  destruct (apply_player_inputs_spec (state t) (events t) (working_ships t)
              bodies2 Hcov) as (ships3 & bodies3 & Happly & _ & _ & Hs & Hb).
  exists ships3, bodies3. split_and!; [done | | |].
  - intros i ship Hi. rewrite Hs in Hi. rewrite Hb.
    destruct (driven (state t) (events t) (working_ships t) bodies2 i); [|done].
    by eexists.
  - intros i. rewrite Hs. unfold driven.
    destruct (js_get (working_ships t) i) as [ship|] eqn:Hship; [|done].
    destruct (Hcov i ship Hship) as [body ->]. simpl.
    by rewrite drive_ship.
  - intros i ship Hship. rewrite Hb. unfold driven. rewrite Hship.
    destruct (Hcov i ship Hship) as [body ->]. by exists body.
Qed.

End DriveFacts.

(** ** The physics step *)

Lemma js_get_step_bodies `{Physics} (world : World) (dt : Q)
    (bodies : list (option Body)) (i : nat) :
  js_get (step_bodies world dt bodies) i
  = (fun _ : Body => world_step world (dt / 1000)%Q bodies i) <$> js_get bodies i.
Proof.
  unfold js_get, step_bodies. rewrite list_lookup_imap.
  by destruct (bodies !! i) as [[b|]|].
Qed.

(** ** Checkpoint and lap detection, slot by slot *)

Section DetectFacts.
Context `{Constants, ShipMethods, TrackCells, Physics}.

(** The ships a slot yields do not depend on the phase and countdown the
    callback runs under. *)
Lemma next_ship_any_state (map : Track) (dt : Q) (st st' : GameState * Q)
    (ship : Ship) (body : Body) :
  (next_ship map dt st ship body).1.2 = (next_ship map dt st' ship body).1.2
  /\ (next_ship map dt st ship body).2 = (next_ship map dt st' ship body).2.
Proof.
  unfold next_ship.
  repeat match goal with
         | |- context [if ?b then _ else _] => destruct b
         end; done.
Qed.

Lemma next_ship_state (map : Track) (dt : Q) (st : GameState * Q)
    (ship : Ship) (body : Body) :
  (next_ship map dt st ship body).1.1
  = if newly_finished map ship body && bool_decide (st.1 = IN_PROGRESS)
    then (FINISH_COUNTDOWN, FINISH_COUNTDOWN_S)
    else st.
Proof.
  unfold next_ship, newly_finished, crosses_finish_line, lapped.
  destruct (cell_checkpoint map body) as [c|]; simpl.
  - destruct (c =? checkpoint ship) eqn:E1; [by replace (checkpoint ship + 1 <? c) with false by lia|].
    destruct (c =? checkpoint ship - 1) eqn:E2; [by replace (checkpoint ship + 1 <? c) with false by lia|].
    destruct (c =? checkpoint ship + 1) eqn:E3; [by replace (checkpoint ship + 1 <? c) with false by lia|].
    destruct (checkpoint ship + 1 <? c) eqn:E4.
    + simpl. destruct (currentLaptime ship <? lap ship + 1); simpl;
        by destruct (negb (hasFinishedRace ship) && _ && _).
    + by destruct (c <? checkpoint ship - 1).
  - by rewrite Z.eqb_refl.
Qed.

(** A cell without a checkpoint: the slot yields the ship with its
    checkpoint and laps as they were, the lap time grown. *)
Lemma next_ship_no_checkpoint (map : Track) (dt : Q) (st : GameState * Q)
    (ship : Ship) (body : Body) :
  cell_checkpoint map body = None ->
  next_ship map dt st ship body =
  (st, ship,
   mkShip (body_position body) (body_velocity body) (body_angle body)
          (username ship) (color ship) (input ship)
          (checkpoint ship) (lap ship) (currentLaptime ship) (timed dt ship)).
Proof.
  intros Hcell. unfold next_ship, timed. rewrite Hcell. simpl.
  by rewrite Z.eqb_refl.
Qed.

(** A cell whose checkpoint is more than one above the ship's: the lap is
    counted. *)
Lemma next_ship_crossing (map : Track) (dt : Q) (st : GameState * Q)
    (ship : Ship) (body : Body) (c : Z) :
  cell_checkpoint map body = Some c -> checkpoint ship + 1 < c ->
  next_ship map dt st ship body =
  (if negb (hasFinishedRace ship) && hasFinishedRace (lapped ship)
      && bool_decide (st.1 = IN_PROGRESS)
   then (FINISH_COUNTDOWN, FINISH_COUNTDOWN_S) else st,
   lapped ship,
   mkShip (body_position body) (body_velocity body) (body_angle body)
          (username ship) (color ship) (input ship)
          c (lap ship + 1) (currentLaptime (lapped ship))
          (if currentLaptime ship <? lap ship + 1
           then timed dt ship ++ [Seconds 0] else timed dt ship)).
Proof.
  intros Hcell Hlt. unfold next_ship, timed, lapped. rewrite Hcell. simpl.
  replace (c =? checkpoint ship) with false by lia.
  replace (c =? checkpoint ship - 1) with false by lia.
  replace (c =? checkpoint ship + 1) with false by lia.
  replace (checkpoint ship + 1 <? c) with true by lia.
  simpl. by destruct (currentLaptime ship <? lap ship + 1).
Qed.

End DetectFacts.

(** ** The bodies.map loop *)

Section LoopFacts.
Context `{Constants, ShipMethods, TrackCells, Physics}.

(** What [bodies.map] yields in every slot, and what it leaves of the
    working ships; [sr] is any phase and countdown. *)
Lemma next_ships_from_slots (map : Track) (dt : Q) (sr : GameState * Q)
    (bodies : list (option Body)) :
  forall (i0 : nat) (st : GameState * Q) (ships : list (option Ship)),
    let r := next_ships_from map dt i0 bodies st ships in
    length r.2 = length bodies
    /\ (forall j, js_get r.2 j =
                  match js_get bodies j, js_get ships (i0 + j) with
                  | Some body, Some ship => Some (next_ship map dt sr ship body).2
                  | _, _ => None
                  end)
    /\ (forall k, js_get r.1.2 k =
                  if decide (i0 <= k)%nat
                  then match js_get bodies (k - i0), js_get ships k with
                       | Some body, Some ship =>
                           Some (next_ship map dt sr ship body).1.2
                       | _, _ => js_get ships k
                       end
                  else js_get ships k).
Proof.
  induction bodies as [|ob bodies IH]; intros i0 st ships r.
  - subst r. cbn [next_ships_from fst snd]. split_and!; [done | |].
    + intros j. by rewrite !js_get_nil.
    + intros k. case_decide; [|done]. by rewrite js_get_nil.
  - subst r. cbn [next_ships_from].
    set (slot := match ob, js_get ships i0 with
                 | Some body, Some ship =>
                     let '(st1, ship1, n) := next_ship map dt st ship body in
                     (st1, <[i0 := Some ship1]> ships, Some n)
                 | _, _ => (st, ships, None)
                 end).
    assert (exists st1 ships1 n, slot = (st1, ships1, n)
              /\ n = match ob, js_get ships i0 with
                     | Some body, Some ship => Some (next_ship map dt sr ship body).2
                     | _, _ => None
                     end
              /\ js_get ships1 i0 =
                 match ob, js_get ships i0 with
                 | Some body, Some ship => Some (next_ship map dt sr ship body).1.2
                 | _, _ => js_get ships i0
                 end
              /\ forall k, k <> i0 -> js_get ships1 k = js_get ships k)
      as (st1 & ships1 & n & -> & Hn & Hat & Hother).
    { subst slot. destruct ob as [body|]; [|by eexists _, _, _].
      destruct (js_get ships i0) as [ship|] eqn:Hship; [|by eexists _, _, _].
      destruct (next_ship_any_state map dt st sr ship body) as [Hw Hx].
      destruct (next_ship map dt st ship body) as [[st1 ship1] n1].
      simpl in Hw, Hx. subst ship1 n1.
      eexists _, _, _. split_and!; [done | done | |].
      - apply js_get_insert_eq. by eapply js_get_lt.
      - intros k Hk. by apply js_get_insert_ne. }
    specialize (IH (S i0) st1 ships1).
    destruct (next_ships_from map dt (S i0) bodies st1 ships1)
      as [[st2 ships2] ns].
    simpl in IH. destruct IH as (Hlen & Hns & Hships). simpl.
    split_and!; [by rewrite Hlen | |].
    + intros [|j].
      * replace (i0 + 0)%nat with i0 by lia. by rewrite !js_get_cons_0, Hn.
      * rewrite !js_get_cons_S.
        rewrite Hns. rewrite Hother by lia.
        by replace (i0 + S j)%nat with (S (i0 + j)) by lia.
    + intros k. rewrite Hships.
      destruct (decide (k = i0)) as [->|Hne].
      * rewrite decide_False, decide_True by lia.
        replace (i0 - i0)%nat with 0%nat by lia. by rewrite js_get_cons_0, Hat.
      * rewrite (Hother k) by done.
        repeat case_decide; try lia; [|done].
        replace (k - i0)%nat with (S (k - S i0)) by lia.
        by rewrite js_get_cons_S.
Qed.

(** The phase and countdown after [bodies.map]: untouched, or the finish
    countdown started from IN_PROGRESS. *)
Lemma next_ships_from_state (map : Track) (dt : Q) (bodies : list (option Body)) :
  forall (i0 : nat) (st : GameState * Q) (ships : list (option Ship)),
    let st' := (next_ships_from map dt i0 bodies st ships).1.1 in
    st' = st
    \/ (st.1 = IN_PROGRESS /\ st' = (FINISH_COUNTDOWN, FINISH_COUNTDOWN_S)).
Proof.
  induction bodies as [|ob bodies IH]; intros i0 st ships; [by left|].
  cbn [next_ships_from].
  set (slot := match ob, js_get ships i0 with
               | Some body, Some ship =>
                   let '(st1, ship1, n) := next_ship map dt st ship body in
                   (st1, <[i0 := Some ship1]> ships, Some n)
               | _, _ => (st, ships, None)
               end).
  assert (slot.1.1 = st
          \/ (st.1 = IN_PROGRESS
              /\ slot.1.1 = (FINISH_COUNTDOWN, FINISH_COUNTDOWN_S))) as Hslot.
  { subst slot. destruct ob as [body|]; [|by left].
    destruct (js_get ships i0) as [ship|]; [|by left].
    pose proof (next_ship_state map dt st ship body) as Hst.
    destruct (next_ship map dt st ship body) as [[st1 ship1] n1].
    simpl in *. subst st1.
    destruct (newly_finished map ship body); [|by left].
    simpl. case_bool_decide; [by right | by left]. }
  destruct slot as [[st1 ships1] n]. simpl in Hslot.
  specialize (IH (S i0) st1 ships1).
  destruct (next_ships_from map dt (S i0) bodies st1 ships1) as [[st2 ships2] ns].
  simpl in *.
  destruct Hslot as [->|[Hin ->]]; [done|].
  destruct IH as [->|[Hno _]]; [by right | done].
Qed.

(** A ship that finishes the race by crossing the line while the phase
    is IN_PROGRESS starts the finish countdown. *)
Lemma next_ships_from_finish (map : Track) (dt : Q) (bodies : list (option Body)) :
  forall (i0 j : nat) (st : GameState * Q) (ships : list (option Ship))
         (ship : Ship) (body : Body),
    st.1 = IN_PROGRESS ->
    js_get bodies j = Some body -> js_get ships (i0 + j) = Some ship ->
    newly_finished map ship body = true ->
    (next_ships_from map dt i0 bodies st ships).1.1
    = (FINISH_COUNTDOWN, FINISH_COUNTDOWN_S).
Proof.
  induction bodies as [|ob bodies IH];
    intros i0 j st ships ship body Hst Hbody Hship Hfin.
  - by rewrite js_get_nil in Hbody.
  - cbn [next_ships_from].
    destruct j as [|j].
    + replace (i0 + 0)%nat with i0 in Hship by lia.
      rewrite js_get_cons_0 in Hbody. subst ob. rewrite Hship.
      pose proof (next_ship_state map dt st ship body) as Hst1.
      rewrite Hfin, bool_decide_eq_true_2 in Hst1 by done. simpl in Hst1.
      destruct (next_ship map dt st ship body) as [[st1 ship1] n1].
      simpl in Hst1. subst st1.
      pose proof (next_ships_from_state map dt bodies (S i0)
                    (FINISH_COUNTDOWN, FINISH_COUNTDOWN_S)
                    (<[i0 := Some ship1]> ships)) as Hrest.
      destruct (next_ships_from map dt (S i0) bodies
                  (FINISH_COUNTDOWN, FINISH_COUNTDOWN_S)
                  (<[i0 := Some ship1]> ships)) as [[st2 ships2] ns].
      simpl in *. by destruct Hrest as [->|[? _]].
    + set (slot := match ob, js_get ships i0 with
                   | Some body0, Some ship0 =>
                       let '(st1, ship1, n) := next_ship map dt st ship0 body0 in
                       (st1, <[i0 := Some ship1]> ships, Some n)
                   | _, _ => (st, ships, None)
                   end).
      assert ((slot.1.1 = st
               \/ slot.1.1 = (FINISH_COUNTDOWN, FINISH_COUNTDOWN_S))
              /\ js_get slot.1.2 (S i0 + j) = Some ship) as [Hslot Hkeep].
      { replace (i0 + S j)%nat with (S i0 + j)%nat in Hship by lia.
        subst slot. destruct ob as [body0|]; [|by split; [left|]].
        destruct (js_get ships i0) as [ship0|]; [|by split; [left|]].
        pose proof (next_ship_state map dt st ship0 body0) as Hst1.
        destruct (next_ship map dt st ship0 body0) as [[st1 ship1] n1].
        simpl in *. subst st1. split.
        - destruct (newly_finished map ship0 body0 && _); [by right | by left].
        - rewrite js_get_insert_ne by lia. done. }
      destruct slot as [[st1 ships1] n]. simpl in Hslot, Hkeep.
      destruct Hslot as [->| ->].
      * specialize (IH (S i0) j st ships1 ship body Hst).
        destruct (next_ships_from map dt (S i0) bodies st ships1)
          as [[st2 ships2] ns].
        simpl in *. by apply IH.
      * pose proof (next_ships_from_state map dt bodies (S i0)
                      (FINISH_COUNTDOWN, FINISH_COUNTDOWN_S) ships1) as Hrest.
        destruct (next_ships_from map dt (S i0) bodies
                    (FINISH_COUNTDOWN, FINISH_COUNTDOWN_S) ships1)
          as [[st2 ships2] ns].
        simpl in *. by destruct Hrest as [->|[? _]].
Qed.

End LoopFacts.

(** ** evolve as a whole *)

Section EvolveFacts.
Context `{Constants, ShipMethods, TrackCells, Physics}.

Lemma detection_input_total (t : Turn) (world : World)
    (bodies : list (option Body)) (dt : Q) :
  exists ships3 stepped,
    detection_input t world bodies dt = Some (ships3, stepped)
    /\ covered ships3 stepped
    /\ forall i,
         js_get ships3 i =
         (fun ship => set_input (resolved_input (state t)
                                   (default [] (js_get (events t) i)) ship) ship)
           <$> js_get (working_ships t) i.
Proof.
  destruct (prepare_spec t bodies) as (ships3 & bodies3 & Hprep & Hcov & Hships & _).
  exists ships3, (step_bodies world dt bodies3).
  unfold detection_input. rewrite Hprep. split_and!; [done | | done].
  intros i ship Hi. rewrite js_get_step_bodies.
  destruct (Hcov i ship Hi) as [body ->]. by eexists.
Qed.

Lemma evolve_detection (t : Turn) (map : Track) (world : World)
    (bodies : list (option Body)) (dt : Q)
    (ships3 : list (option Ship)) (stepped : list (option Body)) :
  detection_input t world bodies dt = Some (ships3, stepped) ->
  evolve t map world bodies dt =
  Some (let r := next_ships_from map dt 0 stepped (state t, counter t) ships3 in
        state_machine r.1.1 r.1.2 r.2).
Proof.
  unfold detection_input, evolve.
  destruct (prepare t bodies) as [[ships3' bodies3]|]; [|done].
  intros [= <- <-].
  by destruct (next_ships_from map dt 0 (step_bodies world dt bodies3)
                 (state t, counter t) ships3') as [[st ships4] nextShips].
Qed.

(** The ships of the turn the state machine builds: the ships of
    [bodies.map], or their reset when the match is reset. *)
Lemma state_machine_ships (st : GameState * Q)
    (ships4 nextShips : list (option Ship)) (i : nat) :
  js_get (ships (state_machine st ships4 nextShips)) i =
  if bool_decide (st.1 = RESULTS_SCREEN)
     && Qeq_bool (inject_Z (Qceiling (st.2 - 1))) 0
  then reset_ship i <$> js_get nextShips i
  else js_get nextShips i.
Proof.
  destruct st as [state0 counter0]. unfold state_machine. simpl.
  destruct state0; simpl; try done.
  - by destruct (Qeq_bool _ 0 || every_finished ships4).
  - destruct (Qeq_bool _ 0); [|done]. simpl.
    unfold js_get. rewrite list_lookup_imap.
    by destruct (nextShips !! i) as [[s|]|].
Qed.

(** The phase and countdown of the turn the state machine builds. *)
Lemma state_machine_state (st : GameState * Q)
    (ships4 nextShips : list (option Ship)) :
  let countdown := inject_Z (Qceiling (st.2 - 1)) in
  (state (state_machine st ships4 nextShips),
   counter (state_machine st ships4 nextShips)) =
  match st.1 with
  | IN_PROGRESS => (IN_PROGRESS, countdown)
  | FINISH_COUNTDOWN =>
      if Qeq_bool countdown 0 || every_finished ships4
      then (RESULTS_SCREEN, RESULTS_SCREEN_S)
      else (FINISH_COUNTDOWN, countdown)
  | RESULTS_SCREEN =>
      if Qeq_bool countdown 0
      then (IN_PROGRESS, countdown)
      else (RESULTS_SCREEN, countdown)
  end.
Proof.
  destruct st as [state0 counter0]. unfold state_machine. simpl.
  destruct state0; simpl; try done.
  - by destruct (Qeq_bool _ 0 || every_finished ships4).
  - by destruct (Qeq_bool _ 0).
Qed.

(** [evolve] returns a turn, and slot [i] of it is what [bodies.map] made
    of the working ship and its stepped body, reset when the match is. *)
Lemma evolve_slot (t : Turn) (map : Track) (world : World)
    (bodies : list (option Body)) (dt : Q)
    (ships3 : list (option Ship)) (stepped : list (option Body))
    (sr : GameState * Q) :
  detection_input t world bodies dt = Some (ships3, stepped) ->
  exists t', evolve t map world bodies dt = Some t'
    /\ (forall i, js_get (ships t') i =
          let n := match js_get stepped i, js_get ships3 i with
                   | Some body, Some ship => Some (next_ship map dt sr ship body).2
                   | _, _ => None
                   end in
          if match_resets t then reset_ship i <$> n else n)
    /\ (state t', counter t') =
       (let r := next_ships_from map dt 0 stepped (state t, counter t) ships3 in
        let countdown := inject_Z (Qceiling (r.1.1.2 - 1)) in
        match r.1.1.1 with
        | IN_PROGRESS => (IN_PROGRESS, countdown)
        | FINISH_COUNTDOWN =>
            if Qeq_bool countdown 0
               || every_finished (detected_ships t map dt ships3 stepped)
            then (RESULTS_SCREEN, RESULTS_SCREEN_S)
            else (FINISH_COUNTDOWN, countdown)
        | RESULTS_SCREEN =>
            if Qeq_bool countdown 0
            then (IN_PROGRESS, countdown)
            else (RESULTS_SCREEN, countdown)
        end).
Proof.
  intros Hdet. eexists. split; [by apply evolve_detection|].
  pose proof (next_ships_from_slots map dt sr stepped 0 (state t, counter t) ships3)
    as (_ & Hns & _).
  pose proof (next_ships_from_state map dt stepped 0 (state t, counter t) ships3)
    as Hst.
  split.
  - intros i. cbv zeta. rewrite state_machine_ships, Hns. simpl.
    unfold match_resets.
    destruct Hst as [-> | [Hin ->]]; simpl in *; [done|].
    rewrite Hin. done.
  - cbv zeta. by rewrite state_machine_state.
Qed.

End EvolveFacts.

(** ** The match reset *)

Section ResetClaim.
Context `{Constants, ShipMethods, TrackCells, Physics}.

(** The turn [evolve] returns holds a vessel exactly in the slots of the
    working ships. *)
Lemma evolve_live (t : Turn) (map : Track) (world : World)
    (bodies : list (option Body)) (dt : Q) :
  exists t', evolve t map world bodies dt = Some t'
    /\ forall i, is_Some (js_get (ships t') i)
                 <-> is_Some (js_get (working_ships t) i).
Proof.
  destruct (detection_input_total t world bodies dt)
    as (ships3 & stepped & Hdet & Hcov & Hships).
  destruct (evolve_slot t map world bodies dt ships3 stepped (state t, counter t) Hdet)
    as (t' & Hev & Hslot & _).
  exists t'. split; [done|]. intros i. rewrite Hslot. cbv zeta.
  pose proof (Hships i) as Hi. pose proof (Hcov i) as Hc.
  destruct (js_get (working_ships t) i) as [ship|]; simpl in Hi.
  - destruct (Hc _ Hi) as [body ->]. rewrite Hi.
    split; [by eexists|]. intros _. destruct (match_resets t); by eexists.
  - rewrite Hi. destruct (js_get stepped i), (match_resets t); simpl;
      split; by intros [? ?].
Qed.

(** C2. When [evolve] runs on a turn in phase RESULTS_SCREEN whose
    countdown reaches zero in this call ([Math.ceil(counter - 1)] is 0), the
    turn it returns is in phase IN_PROGRESS, it holds a vessel in every slot
    that held a working vessel, and every vessel of it is at the spawn pose
    of its slot, at rest, heading [-Math.PI / 2], with checkpoint 1, lap 0,
    currentLaptime 0 and laptimes [[0]]. *)
Theorem evolve_results_screen_reset (t : Turn) (map : Track) (world : World)
    (bodies : list (option Body)) (dt : Q) :
  state t = RESULTS_SCREEN ->
  Qceiling (counter t - 1) = 0 ->
  exists t', evolve t map world bodies dt = Some t'
    /\ state t' = IN_PROGRESS
    /\ (forall i, is_Some (js_get (ships t') i)
                  <-> is_Some (js_get (working_ships t) i))
    /\ forall i ship, js_get (ships t') i = Some ship ->
         position ship = positionForShipId i
         /\ velocity ship = (0, 0)%Q
         /\ angle ship = (Qopp Math_PI / 2)%Q
         /\ checkpoint ship = 1
         /\ lap ship = 0
         /\ currentLaptime ship = 0
         /\ laptimes ship = [Seconds 0].
Proof.
  intros Hstate Hzero.
  destruct (detection_input_total t world bodies dt)
    as (ships3 & stepped & Hdet & Hcov & Hships).
  destruct (evolve_slot t map world bodies dt ships3 stepped (state t, counter t) Hdet)
    as (t' & Hev & Hslot & Hphase).
  destruct (evolve_live t map world bodies dt) as (t'' & Hev' & Hlive).
  rewrite Hev in Hev'. injection Hev' as <-.
  exists t'. split_and!; [done | | done |].
  - pose proof (next_ships_from_state map dt stepped 0 (state t, counter t) ships3)
      as Hst.
    cbv zeta in Hphase.
    destruct Hst as [Hst | [Hin _]]; [|simpl in Hin; congruence].
    rewrite Hst in Hphase. simpl in Hphase. rewrite Hstate, Hzero in Hphase.
    simpl in Hphase. by injection Hphase as -> _.
  - intros i ship. rewrite Hslot. cbv zeta.
    assert (match_resets t = true) as ->.
    { unfold match_resets. by rewrite Hstate, Hzero. }
    destruct (match js_get stepped i with Some _ => _ | None => _ end)
      as [n|]; [|done].
    simpl. by intros [= <-].
Qed.

End ResetClaim.

Lemma evolve_results_screen_reset_witness :
  state results_turn = RESULTS_SCREEN
  /\ Qceiling (counter results_turn - 1) = 0
  /\ exists t', example_evolve results_turn [] = Some t'
       /\ state t' = IN_PROGRESS
       /\ (checkpoint <$> js_get (ships t') 2) = Some 1
       /\ (laptimes <$> js_get (ships t') 2) = Some [Seconds 0].
Proof.
  split; [reflexivity|]. split; [reflexivity|].
  destruct (@evolve_results_screen_reset example_constants example_methods
              example_cells example_physics results_turn example_track tt [] 16
              eq_refl eq_refl) as (t' & Hev & Hstate & Hlive & Hreset).
  exists t'. split; [exact Hev|]. split; [exact Hstate|].
  destruct (proj2 (Hlive 2%nat) (ex_intro _ _ eq_refl)) as [ship Hship].
  destruct (Hreset 2%nat ship Hship) as (_ & _ & _ & Hc & _ & _ & Hl).
  rewrite Hship. simpl. rewrite Hc, Hl. split; reflexivity.
Defined.

(** ** Cells without a checkpoint *)

Lemma z_get_nil {A : Type} (i : Z) : z_get (@nil A) i = None.
Proof. unfold z_get. case_decide; [apply lookup_nil | done]. Qed.

Section GridClaim.
Context `{Constants, ShipMethods, TrackCells, Physics}.

(** The code keeps the old checkpoint exactly on the cells that are absent
    or hold no number. *)
Lemma no_number_iff (map : Track) (body : Body) :
  no_number_at map body <-> cell_checkpoint map body = None.
Proof.
  unfold no_number_at, grid_cell, cell_checkpoint, track_cell.
  destruct (z_get map _) as [row|]; simpl.
  - destruct (z_get row _) as [c|]; [|done].
    destruct (decide (c = EmptyString)) as [->|Hne].
    + split; [done | by left].
    + case_decide as Hblank.
      * split; [done | intros _; right; by left].
      * split; [by intros [? | [? | ?]] | intros Hc; right; by right].
  - by rewrite z_get_nil.
Qed.

Lemma no_number_no_checkpoint (map : Track) (body : Body) :
  no_number_at map body -> cell_checkpoint map body = None.
Proof. apply no_number_iff. Qed.

(** C8, as the code has it. For a working vessel whose stepped body lies on
    a track cell that is absent or holds no number, [evolve] raises no
    error and returns a turn that holds the vessel in the same slot with its
    checkpoint unchanged, unless this call resets the match (phase
    RESULTS_SCREEN, countdown reaching zero): then the checkpoint is 1. *)
Theorem evolve_checkpoint_off_track (t : Turn) (map : Track) (world : World)
    (bodies : list (option Body)) (dt : Q) (i : nat)
    (ships3 : list (option Ship)) (stepped : list (option Body))
    (ship : Ship) (body : Body) :
  detection_input t world bodies dt = Some (ships3, stepped) ->
  js_get ships3 i = Some ship ->
  js_get stepped i = Some body ->
  no_number_at map body ->
  exists t' ship', evolve t map world bodies dt = Some t'
    /\ js_get (ships t') i = Some ship'
    /\ checkpoint ship' = if match_resets t then 1 else checkpoint ship.
Proof.
  intros Hdet Hship Hbody Hcell.
  destruct (evolve_slot t map world bodies dt ships3 stepped (state t, counter t) Hdet)
    as (t' & Hev & Hslot & _).
  specialize (Hslot i). cbv zeta in Hslot. rewrite Hship, Hbody in Hslot.
  rewrite next_ship_no_checkpoint in Hslot by (by apply no_number_no_checkpoint).
  simpl in Hslot.
  destruct (match_resets t); simpl in Hslot; eexists t', _; by split_and!.
Qed.

End GridClaim.

Lemma evolve_checkpoint_off_track_witness :
  (exists t' ship', example_evolve results_turn [] = Some t'
     /\ js_get (ships t') 0 = Some ship'
     /\ checkpoint ship' = 1)
  /\ (exists t' ship',
        @evolve example_constants example_methods blank_is_zero_cells
          example_physics off_track_turn example_track tt [] 16 = Some t'
        /\ js_get (ships t') 0 = Some ship'
        /\ checkpoint ship' = 2)
  /\ (exists t' ship', example_evolve off_track_turn [] = Some t'
        /\ js_get (ships t') 1 = Some ship'
        /\ checkpoint ship' = 4).
Proof.
  split_and!.
  - refine (@evolve_checkpoint_off_track example_constants example_methods
              example_cells example_physics results_turn example_track tt [] 16
              0%nat _ _ (example_ship 4 5) _ _ _ _ _).
    + vm_compute. reflexivity.
    + reflexivity.
    + reflexivity.
    + right. right. reflexivity.
  - refine (@evolve_checkpoint_off_track example_constants example_methods
              blank_is_zero_cells example_physics off_track_turn example_track
              tt [] 16 0%nat _ _ (example_ship 3 2) _ _ _ _ _).
    + vm_compute. reflexivity.
    + reflexivity.
    + reflexivity.
    + right. left. reflexivity.
  - refine (@evolve_checkpoint_off_track example_constants example_methods
              example_cells example_physics off_track_turn example_track
              tt [] 16 1%nat _ _ (example_ship 7 4) _ _ _ _ _).
    + vm_compute. reflexivity.
    + reflexivity.
    + reflexivity.
    + exact I.
Defined.

(** The claim as the specification states it fails when the match is
    reset: a vessel on a wall cell, at checkpoint 5 when the results screen
    ends, is at checkpoint 1 in the next turn. *)
Lemma evolve_checkpoint_off_track_counterexample :
  exists ships3 stepped ship body t' ship',
    @detection_input example_constants example_methods example_physics
      results_turn tt [] 16 = Some (ships3, stepped)
    /\ js_get ships3 0 = Some ship
    /\ js_get stepped 0 = Some body
    /\ @no_number_at example_constants example_cells example_track body
    /\ example_evolve results_turn [] = Some t'
    /\ js_get (ships t') 0 = Some ship'
    /\ checkpoint ship = 5
    /\ checkpoint ship' = 1.
Proof.
  do 6 eexists. split_and!; try (vm_compute; reflexivity).
  right. right. reflexivity.
Qed.

(** ** Crossing the finish line *)

Section FinishLineClaim.
Context `{Constants, ShipMethods, TrackCells, Physics}.

(** C1, as the code has it. A working vessel whose stepped body lies on a
    cell with a checkpoint more than one above its own has its lap counted:
    unless this call resets the match, the vessel of the returned turn has
    [lap] one higher and, when the new lap exceeds [currentLaptime],
    [currentLaptime] equal to the new lap and a zero entry appended to the
    lap times.  If the vessel finishes the race by this lap and the turn is
    IN_PROGRESS, the finish countdown starts at FINISH_COUNTDOWN_S before
    the state machine of the same call runs, which decrements it: the
    returned turn is in phase FINISH_COUNTDOWN with countdown
    [Math.ceil(FINISH_COUNTDOWN_S - 1)], or, when that is 0 or every working
    ship has finished, in phase RESULTS_SCREEN with countdown
    RESULTS_SCREEN_S. *)
Theorem evolve_finish_line (t : Turn) (map : Track) (world : World)
    (bodies : list (option Body)) (dt : Q) (i : nat)
    (ships3 : list (option Ship)) (stepped : list (option Body))
    (ship : Ship) (body : Body) (c : Z) :
  detection_input t world bodies dt = Some (ships3, stepped) ->
  js_get ships3 i = Some ship ->
  js_get stepped i = Some body ->
  cell_checkpoint map body = Some c ->
  checkpoint ship + 1 < c ->
  exists t', evolve t map world bodies dt = Some t'
    /\ (match_resets t = false ->
        exists ship', js_get (ships t') i = Some ship'
          /\ lap ship' = lap ship + 1
          /\ if currentLaptime ship <? lap ship + 1
             then currentLaptime ship' = lap ship + 1
                  /\ laptimes ship' = timed dt ship ++ [Seconds 0]
             else currentLaptime ship' = currentLaptime ship
                  /\ laptimes ship' = timed dt ship)
    /\ (state t = IN_PROGRESS ->
        hasFinishedRace ship = false ->
        hasFinishedRace (lapped ship) = true ->
        let countdown := inject_Z (Qceiling (FINISH_COUNTDOWN_S - 1)) in
        (state t', counter t') =
        if Qeq_bool countdown 0
           || every_finished (detected_ships t map dt ships3 stepped)
        then (RESULTS_SCREEN, RESULTS_SCREEN_S)
        else (FINISH_COUNTDOWN, countdown)).
Proof.
  intros Hdet Hship Hbody Hcell Hlt.
  destruct (evolve_slot t map world bodies dt ships3 stepped (state t, counter t) Hdet)
    as (t' & Hev & Hslot & Hphase).
  exists t'. split_and!; [done | |].
  - intros Hno. specialize (Hslot i). cbv zeta in Hslot.
    rewrite Hship, Hbody, Hno in Hslot.
    rewrite (next_ship_crossing map dt _ ship body c) in Hslot by done.
    simpl in Hslot. eexists. split; [exact Hslot|]. simpl. split; [done|].
    unfold lapped. by destruct (currentLaptime ship <? lap ship + 1).
  - intros Hstate Hhad Hhas. cbv zeta in Hphase |- *.
    rewrite (next_ships_from_finish map dt stepped 0 i (state t, counter t)
               ships3 ship body) in Hphase; try done.
    unfold newly_finished, crosses_finish_line.
    rewrite Hcell, Hhad, Hhas.
    by replace (checkpoint ship + 1 <? c) with true by lia.
Qed.

End FinishLineClaim.

Lemma evolve_finish_line_witness :
  exists t', example_evolve last_lap_turn [] = Some t'
    /\ (lap <$> js_get (ships t') 0) = Some 4
    /\ (currentLaptime <$> js_get (ships t') 0) = Some 4
    /\ state t' = FINISH_COUNTDOWN
    /\ counter t' = 9%Q.
Proof.
  edestruct (@evolve_finish_line example_constants example_methods
               example_cells example_physics last_lap_turn example_track tt [] 16
               0%nat) as (t' & Hev & Hlap & Hphase).
  - vm_compute. reflexivity.
  - reflexivity.
  - reflexivity.
  - vm_compute. reflexivity.
  - vm_compute. reflexivity.
  - exists t'. split; [exact Hev|].
    destruct (Hlap eq_refl) as (ship' & Hship' & Hl & Hcur & _).
    specialize (Hphase eq_refl eq_refl eq_refl).
    rewrite Hship'. simpl. rewrite Hl, Hcur.
    split; [reflexivity|]. split; [reflexivity|].
    cbv zeta in Hphase. split.
    + change (state t') with (state t', counter t').1. rewrite Hphase.
      vm_compute. reflexivity.
    + change (counter t') with (state t', counter t').2. rewrite Hphase.
      vm_compute. reflexivity.
Defined.

(** The claim as the specification states it fails: a racer who finishes
    alone puts the returned turn in phase RESULTS_SCREEN, not
    FINISH_COUNTDOWN; and with another racer still on the track, the
    countdown of the returned turn is 9, not FINISH_COUNTDOWN_S = 10. *)
Lemma evolve_finish_line_counterexample :
  (exists ships3 stepped ship body c t',
     @detection_input example_constants example_methods example_physics
       solo_turn tt [] 16 = Some (ships3, stepped)
     /\ js_get ships3 0 = Some ship
     /\ js_get stepped 0 = Some body
     /\ @cell_checkpoint example_constants example_cells example_track body = Some c
     /\ checkpoint ship + 1 < c
     /\ state solo_turn = IN_PROGRESS
     /\ @hasFinishedRace example_methods ship = false
     /\ @hasFinishedRace example_methods (lapped ship) = true
     /\ example_evolve solo_turn [] = Some t'
     /\ state t' = RESULTS_SCREEN
     /\ counter t' = @RESULTS_SCREEN_S example_constants)
  /\ (exists t',
        example_evolve last_lap_turn [] = Some t'
        /\ state t' = FINISH_COUNTDOWN
        /\ counter t' = 9%Q
        /\ @FINISH_COUNTDOWN_S example_constants = 10%Q).
Proof.
  split.
  - do 6 eexists. split_and!; vm_compute; reflexivity.
  - eexists. split_and!; vm_compute; reflexivity.
Qed.

(** ** Control inputs *)

Section ControlClaims.
Context `{Constants, ShipMethods, TrackCells, Physics}.

Lemma next_ship_input (map : Track) (dt : Q) (st : GameState * Q)
    (ship : Ship) (body : Body) :
  input (next_ship map dt st ship body).2 = input ship.
Proof.
  unfold next_ship.
  repeat match goal with
         | |- context [if ?b then _ else _] => destruct b
         end; done.
Qed.

(** The input a vessel of the returned turn carries is the one the input
    stage resolved. *)
Lemma evolve_input (t : Turn) (map : Track) (world : World)
    (bodies : list (option Body)) (dt : Q) (i : nat) (ship : Ship) :
  js_get (working_ships t) i = Some ship ->
  exists t' ship', evolve t map world bodies dt = Some t'
    /\ js_get (ships t') i = Some ship'
    /\ input ship' =
       resolved_input (state t) (default [] (js_get (events t) i)) ship.
Proof.
  intros Hship.
  destruct (detection_input_total t world bodies dt)
    as (ships3 & stepped & Hdet & Hcov & Hships).
  destruct (evolve_slot t map world bodies dt ships3 stepped (state t, counter t) Hdet)
    as (t' & Hev & Hslot & _).
  specialize (Hslot i). cbv zeta in Hslot.
  specialize (Hships i). rewrite Hship in Hships. simpl in Hships.
  destruct (Hcov i _ Hships) as [body Hbody].
  rewrite Hships, Hbody in Hslot.
  destruct (match_resets t); simpl in Hslot;
    eexists t', _; (split_and!; [done | exact Hslot |]);
    simpl; by rewrite ?next_ship_input.
Qed.

Lemma air_drag_angle (body : Body) : body_angle (air_drag body) = body_angle body.
Proof. done. Qed.

(** The heading of the body the input stage hands to the physics step. *)
Lemma drive_angle (state : GameState) (playerEvents : list GameEvent)
    (ship : Ship) (body : Body) :
  let resolved := resolved_input state playerEvents ship in
  body_angle (drive state playerEvents ship body).2 =
  (let a := if turnL resolved then (angle ship + Qopp Math_PI / 2)%Q
            else angle ship in
   if turnR resolved then (a + Math_PI / 2)%Q else a).
Proof.
  unfold drive, resolved_input.
  destruct (negb (hasFinishedRace ship) && racing state); [|done].
  cbv zeta. cbn [snd]. rewrite air_drag_angle.
  set (inp := foldl applyPlayerEvent _ playerEvents).
  destruct (leanL inp), (leanR inp), (turnR inp), (turnL inp);
    by rewrite ?applyForceLocal_angle.
Qed.

(** Without control the body enters the physics step with the kinematics
    of the ship, no force on it, and the drag applied. *)
Lemma drive_no_control (state : GameState) (playerEvents : list GameEvent)
    (ship : Ship) (body : Body) :
  negb (hasFinishedRace ship) && racing state = false ->
  drive state playerEvents ship body =
  (set_input new_PlayerInput ship,
   mkBody (position ship)
          (fst (velocity ship) * 0.99, snd (velocity ship) * 0.99)%Q
          (angle ship) (0, 0)%Q 0%Q).
Proof. intros Hgate. unfold drive. by rewrite Hgate. Qed.

(** C4. For a working vessel that has finished the race, or when the phase
    is RESULTS_SCREEN (neither IN_PROGRESS nor FINISH_COUNTDOWN), the input
    stage applies no force and no heading change: the body of the slot
    enters the physics step with the position and heading of the ship, the
    velocity of the ship under air drag, and zero force and angular force.
    The working input is the all-false input, it is stored on the working
    ship, and the vessel of the returned turn carries it. *)
Theorem evolve_control_gate (t : Turn) (map : Track) (world : World)
    (bodies : list (option Body)) (dt : Q) (i : nat) (ship : Ship) :
  js_get (working_ships t) i = Some ship ->
  hasFinishedRace ship = true \/ state t = RESULTS_SCREEN ->
  exists ships3 bodies3 t' ship',
    prepare t bodies = Some (ships3, bodies3)
    /\ js_get ships3 i = Some (set_input new_PlayerInput ship)
    /\ js_get bodies3 i =
       Some (mkBody (position ship)
                    (fst (velocity ship) * 0.99, snd (velocity ship) * 0.99)%Q
                    (angle ship) (0, 0)%Q 0%Q)
    /\ evolve t map world bodies dt = Some t'
    /\ js_get (ships t') i = Some ship'
    /\ input ship' = new_PlayerInput.
Proof.
  intros Hship Hgate.
  assert (negb (hasFinishedRace ship) && racing (state t) = false) as Hoff.
  { destruct Hgate as [-> | ->]; [done | apply andb_false_r]. }
  destruct (prepare_spec t bodies) as (ships3 & bodies3 & Hprep & _ & Hs & Hb).
  destruct (evolve_input t map world bodies dt i ship Hship)
    as (t' & ship' & Hev & Hship' & Hinput).
  destruct (Hb i ship Hship) as [body Hbody].
  rewrite drive_no_control in Hbody by done.
  exists ships3, bodies3, t', ship'. split_and!; [done | | done | done | done |].
  - rewrite Hs, Hship. simpl. unfold resolved_input. by rewrite Hoff.
  - rewrite Hinput. unfold resolved_input. by rewrite Hoff.
Qed.

Lemma fold_applyPlayerEvent_turnL (queue : list GameEvent) (p : PlayerInput) :
  turnL (foldl applyPlayerEvent p queue) = true ->
  turnL p = true
  \/ exists ev, ev ∈ queue /\ ev_type ev = TURN_L /\ ev_val ev = true.
Proof.
  revert p. induction queue as [|ev queue IH]; intros p Hfold; [by left|].
  cbn [foldl] in Hfold. destruct (IH _ Hfold) as [Hp | (ev' & Hin & Hty & Hval)].
  - unfold applyPlayerEvent in Hp. destruct (ev_type ev) eqn:Hty;
      simpl in Hp; try (by left).
    right. exists ev. split_and!; [left | done | done].
  - right. exists ev'. split_and!; [by right | done | done].
Qed.

Lemma fold_applyPlayerEvent_turnR (queue : list GameEvent) (p : PlayerInput) :
  turnR (foldl applyPlayerEvent p queue) = true ->
  turnR p = true
  \/ exists ev, ev ∈ queue /\ ev_type ev = TURN_R /\ ev_val ev = true.
Proof.
  revert p. induction queue as [|ev queue IH]; intros p Hfold; [by left|].
  cbn [foldl] in Hfold. destruct (IH _ Hfold) as [Hp | (ev' & Hin & Hty & Hval)].
  - unfold applyPlayerEvent in Hp. destruct (ev_type ev) eqn:Hty;
      simpl in Hp; try (by left).
    right. exists ev. split_and!; [left | done | done].
  - right. exists ev'. split_and!; [by right | done | done].
Qed.

(** C7. For every working vessel, the input stage starts from a copy of the
    vessel's stored input with turnL and turnR set to false and folds the
    events queued for the slot in this tick into it.  So the resolved input
    has a turn flag set only if the queue of this tick holds an event that
    sets it, whatever the stored input held, and the heading of the body
    changes by a quarter turn exactly for the turn flags of the resolved
    input. *)
Theorem evolve_turn_edge_triggered (t : Turn) (bodies : list (option Body))
    (i : nat) (ship : Ship) :
  js_get (working_ships t) i = Some ship ->
  exists ships3 bodies3 ship3 body3,
    prepare t bodies = Some (ships3, bodies3)
    /\ js_get ships3 i = Some ship3
    /\ js_get bodies3 i = Some body3
    /\ let queue := default [] (js_get (events t) i) in
       let cleared :=
         set_turnR false (set_turnL false (copy_PlayerInput (input ship))) in
       (negb (hasFinishedRace ship) && racing (state t) = true ->
        input ship3 = foldl applyPlayerEvent cleared queue)
       /\ (turnL (input ship3) = true ->
           exists ev, ev ∈ queue /\ ev_type ev = TURN_L /\ ev_val ev = true)
       /\ (turnR (input ship3) = true ->
           exists ev, ev ∈ queue /\ ev_type ev = TURN_R /\ ev_val ev = true)
       /\ body_angle body3 =
          (let a := if turnL (input ship3)
                    then (angle ship + Qopp Math_PI / 2)%Q else angle ship in
           if turnR (input ship3) then (a + Math_PI / 2)%Q else a).
Proof.
  intros Hship.
  destruct (prepare_spec t bodies) as (ships3 & bodies3 & Hprep & _ & Hs & Hb).
  destruct (Hb i ship Hship) as [body Hbody].
  specialize (Hs i). rewrite Hship in Hs. simpl in Hs.
  eexists ships3, bodies3, _, _. split_and!; [done | exact Hs | exact Hbody |].
  cbv zeta. cbn [input set_input]. split_and!.
  - intros Hon. unfold resolved_input. by rewrite Hon.
  - unfold resolved_input.
    destruct (negb (hasFinishedRace ship) && racing (state t)); [|done].
    intros Hturn. by destruct (fold_applyPlayerEvent_turnL _ _ Hturn).
  - unfold resolved_input.
    destruct (negb (hasFinishedRace ship) && racing (state t)); [|done].
    intros Hturn. by destruct (fold_applyPlayerEvent_turnR _ _ Hturn).
  - apply drive_angle.
Qed.

End ControlClaims.

Lemma evolve_control_gate_witness :
  exists t' ship', example_evolve results_turn [] = Some t'
    /\ js_get (ships t') 0 = Some ship'
    /\ input ship' = new_PlayerInput.
Proof.
  destruct (@evolve_control_gate example_constants example_methods
              example_cells example_physics results_turn example_track tt [] 16
              0%nat (example_ship 4 5) eq_refl (or_intror eq_refl))
    as (ships3 & bodies3 & t' & ship' & _ & _ & _ & Hev & Hship' & Hinput).
  by exists t', ship'.
Defined.

Lemma evolve_turn_edge_triggered_witness :
  turnL (input turning_ship) = true
  /\ exists ships3 bodies3 ship3 body3,
       @prepare example_constants example_methods example_physics
         turning_turn [] = Some (ships3, bodies3)
       /\ js_get ships3 0 = Some ship3
       /\ js_get bodies3 0 = Some body3
       /\ turnL (input ship3) = false
       /\ turnR (input ship3) = true
       /\ body_angle body3 = (0 + Math_PI / 2)%Q.
Proof.
  split; [reflexivity|].
  destruct (@evolve_turn_edge_triggered example_constants example_methods
              example_physics turning_turn [] 0%nat turning_ship eq_refl)
    as (ships3 & bodies3 & ship3 & body3 & Hprep & Hship3 & Hbody3
        & Hfold & _ & _ & Hangle).
  exists ships3, bodies3, ship3, body3.
  specialize (Hfold eq_refl). cbv zeta in Hangle. rewrite Hfold in Hangle.
  rewrite Hfold. split_and!; [done | done | done | reflexivity | reflexivity |].
  exact Hangle.
Defined.

(** ** Spawning *)

Lemma Z_even_of_nat (k : nat) : Z.even (Z.of_nat k) = Nat.even k.
Proof.
  induction k as [|k IH]; [done|].
  rewrite Nat2Z.inj_succ, Z.even_succ, Nat.even_succ.
  by rewrite <- Z.negb_even, <- Nat.negb_even, IH.
Qed.

(** The spawn pose in closed form. *)
Lemma positionForShipId_closed (k : nat) :
  (fst (positionForShipId k) == 98 + 3 * inject_Z (Z.of_nat k))%Q
  /\ (snd (positionForShipId k) == if Nat.even k then 52 else 48)%Q.
Proof.
  unfold positionForShipId. cbn [fst snd]. split; [ring|].
  rewrite <- Z_even_of_nat, Zeven_mod.
  by destruct (Z.of_nat k mod 2 =? 0).
Qed.

(** C9. Applying a SPAWN_PLAYER event that names slot [k] to any working
    ships and bodies puts in slot [k] a body and a vessel at the spawn pose
    [(98 + 3k, 52)] for even [k] and [(98 + 3k, 48)] for odd [k], at rest,
    heading [-Math.PI / 2], with the name and colour of the event, the
    all-false input, checkpoint 1, lap 0, currentLaptime 0 and laptimes
    [[0]]. *)
Theorem spawn_player_pose (ships0 : list (option Ship))
    (bodies0 : list (option Body)) (sev : ServerEvent) :
  sev_type sev = SPAWN_PLAYER ->
  exists ship,
    js_get (consume_server_event (ships0, bodies0) sev).1 (sev_val sev) = Some ship
    /\ js_get (consume_server_event (ships0, bodies0) sev).2 (sev_val sev)
       = Some (new_Body (positionForShipId (sev_val sev)))
    /\ position ship = positionForShipId (sev_val sev)
    /\ (fst (position ship) == 98 + 3 * inject_Z (Z.of_nat (sev_val sev)))%Q
    /\ (snd (position ship) == if Nat.even (sev_val sev) then 52 else 48)%Q
    /\ velocity ship = (0, 0)%Q
    /\ angle ship = (Qopp Math_PI / 2)%Q
    /\ username ship = sev_username sev
    /\ color ship = sev_color sev
    /\ input ship = new_PlayerInput
    /\ checkpoint ship = 1
    /\ lap ship = 0
    /\ currentLaptime ship = 0
    /\ laptimes ship = [Seconds 0].
Proof.
  intros Hty. unfold consume_server_event. rewrite Hty. cbn [fst snd].
  eexists. rewrite !js_get_set_eq.
  destruct (positionForShipId_closed (sev_val sev)) as [Hx Hy].
  split_and!; try reflexivity; [exact Hx | exact Hy].
Qed.

Lemma spawn_player_pose_witness :
  exists ship,
    js_get (consume_server_event ([Some (example_ship 0 1)], [])
              (mkServerEvent SPAWN_PLAYER 3 "bob" 2)).1 3 = Some ship
    /\ (fst (position ship) == 107)%Q
    /\ (snd (position ship) == 48)%Q
    /\ laptimes ship = [Seconds 0].
Proof.
  destruct (spawn_player_pose [Some (example_ship 0 1)] []
              (mkServerEvent SPAWN_PLAYER 3 "bob" 2) eq_refl)
    as (ship & Hship & _ & _ & Hx & Hy & _ & _ & _ & _ & _ & _ & _ & _ & Hl).
  exists ship. split_and!; [exact Hship | exact Hx | exact Hy | exact Hl].
Defined.

(** The working ships after one more server event has been queued. *)
Lemma working_ships_addServerEvent (t : Turn) (sev : ServerEvent) :
  working_ships (addServerEvent t [sev]).1
  = (consume_server_event (working_ships t, []) sev).1.
Proof.
  unfold working_ships, addServerEvent, consume_server_events. cbn [fst serverEvents ships].
  rewrite foldl_snoc.
  destruct (foldl consume_server_event (ships t, []) (serverEvents t))
    as [ships2 bodies2]. cbn [fst].
  unfold consume_server_event. by destruct (sev_type sev).
Qed.

(** C5, as the code has it. [evolve] avoids no collision itself: a queued
    SPAWN_PLAYER event is applied at exactly the slot it names, where its
    vessel replaces whatever the slot held (a live vessel or a vessel
    spawned earlier in the tick), and no other slot changes.  The slot holds
    no live vessel and is named by no SPAWN_PLAYER event queued before when
    it was taken from [getFreeShipSlot]. *)
Theorem spawn_player_takes_named_slot (t : Turn) (sev : ServerEvent) :
  sev_type sev = SPAWN_PLAYER ->
  let t' := (addServerEvent t [sev]).1 in
  js_get (working_ships t') (sev_val sev)
  = Some (spawn_ship sev (new_Body (positionForShipId (sev_val sev))))
  /\ (forall j, j <> sev_val sev ->
                js_get (working_ships t') j = js_get (working_ships t) j)
  /\ (getFreeShipSlot t = Some (sev_val sev) ->
      js_get (ships t) (sev_val sev) = None /\ ~ spawn_queued t (sev_val sev)).
Proof.
  intros Hty. cbv zeta. rewrite working_ships_addServerEvent.
  unfold consume_server_event. rewrite Hty. cbn [fst].
  split_and!.
  - apply js_get_set_eq.
  - intros j Hj. by apply js_get_set_ne.
  - intros Hfree.
    destruct (free_slot_loop_spec t (reservedSlots t) (slot_bound t)
                (S (slot_bound t)) 0 (slot_bound_free t))
      as (k & Hk & _ & Hkfree & _); [lia | lia |].
    unfold getFreeShipSlot in Hfree. rewrite Hk in Hfree. injection Hfree as ->.
    apply not_true_iff_false in Hkfree. rewrite slot_taken_spec in Hkfree.
    split.
    + destruct (js_get (ships t) (sev_val sev)) eqn:Hget; [|done].
      exfalso. apply Hkfree. left. by eexists.
    + intros Hq. apply Hkfree. by right.
Qed.

Lemma spawn_player_takes_named_slot_witness :
  (username <$> js_get (working_ships crowded_turn) 0) = Some "bob"%string
  /\ (username <$>
        js_get (working_ships
                  (addServerEvent crowded_turn
                     [mkServerEvent SPAWN_PLAYER 0 "cat" 3]).1) 0)
     = Some "cat"%string.
Proof.
  split; [reflexivity|].
  destruct (spawn_player_takes_named_slot crowded_turn
              (mkServerEvent SPAWN_PLAYER 0 "cat" 3) eq_refl) as (Hslot & _ & _).
  cbv zeta in Hslot. cbn [sev_val] in Hslot. rewrite Hslot. reflexivity.
Defined.

(** The claim as the specification states it fails: with a live vessel in
    slot 0 and two SPAWN_PLAYER events that name slot 0, the returned turn
    holds one vessel, the one of the last event; the live vessel and the
    vessel of the first event are gone. *)
Lemma spawn_player_collision_counterexample :
  exists t',
    example_evolve
      (mkTurn [Some (example_ship 0 1)] []
              [mkServerEvent SPAWN_PLAYER 0 "bob" 2;
               mkServerEvent SPAWN_PLAYER 0 "cat" 3] IN_PROGRESS 0) []
    = Some t'
    /\ (username <$> js_get (ships t') 0) = Some "cat"%string
    /\ length (ships t') = 1%nat.
Proof.
  eexists. split_and!; vm_compute; reflexivity.
Qed.

(** ** The lap timer *)

Lemma add_laptime_length (laptimes : list Laptime) (c : Z) (d : Q) :
  0 <= c -> c = Z.of_nat (length laptimes) - 1 ->
  length (add_laptime laptimes c d) = length laptimes.
Proof.
  intros Hpos Hlast. unfold add_laptime.
  rewrite decide_False by lia.
  destruct (laptimes !! Z.to_nat c) as [[q|]|] eqn:Hlook.
  - apply length_insert.
  - done.
  - apply lookup_ge_None in Hlook. lia.
Qed.

Lemma spawn_ship_ok (sev : ServerEvent) (body : Body) :
  lap_timer_ok (spawn_ship sev body).
Proof. unfold lap_timer_ok. simpl. lia. Qed.

Lemma reset_ship_ok (i : nat) (ship : Ship) : lap_timer_ok (reset_ship i ship).
Proof. unfold lap_timer_ok. simpl. lia. Qed.

Lemma consume_server_events_ok (sevs : list ServerEvent)
    (ships0 : list (option Ship)) (bodies0 : list (option Body)) :
  ships_ok ships0 -> ships_ok (consume_server_events ships0 bodies0 sevs).1.
Proof.
  unfold consume_server_events. revert ships0 bodies0.
  induction sevs as [|sev sevs IH]; intros ships0 bodies0 Hok; [done|].
  cbn [foldl]. unfold consume_server_event at 2.
  destruct (sev_type sev); apply IH; intros i ship.
  - destruct (decide (sev_val sev = i)) as [->|Hne].
    + rewrite js_get_set_eq. intros [= <-]. apply spawn_ship_ok.
    + rewrite js_get_set_ne by done. apply Hok.
  - destruct (decide (sev_val sev = i)) as [->|Hne].
    + by rewrite js_get_delete_eq.
    + rewrite js_get_delete_ne by done. apply Hok.
Qed.

Section LapTimer.
Context `{Constants, ShipMethods, TrackCells, Physics}.

Lemma timed_length (dt : Q) (ship : Ship) :
  lap_timer_ok ship -> length (timed dt ship) = length (laptimes ship).
Proof.
  intros (Hpos & Hlast & _). unfold timed.
  destruct (negb (hasFinishedRace ship)); [|done].
  by apply add_laptime_length.
Qed.

(** The lap timer of the ship a slot yields, by the branch taken. *)
Lemma next_ship_timer (map : Track) (dt : Q) (st : GameState * Q)
    (ship : Ship) (body : Body) :
  let n := (next_ship map dt st ship body).2 in
  (lap n = lap ship + 1
   /\ if currentLaptime ship <? lap ship + 1
      then currentLaptime n = lap ship + 1
           /\ laptimes n = timed dt ship ++ [Seconds 0]
      else currentLaptime n = currentLaptime ship
           /\ laptimes n = timed dt ship)
  \/ ((lap n = lap ship \/ lap n = lap ship - 1)
      /\ currentLaptime n = currentLaptime ship
      /\ laptimes n = timed dt ship).
Proof.
  cbv zeta. unfold next_ship. fold (timed dt ship).
  set (c := default (checkpoint ship) (cell_checkpoint map body)).
  destruct (c =? checkpoint ship); [right; simpl; auto|].
  destruct (c =? checkpoint ship - 1); [right; simpl; auto|].
  destruct (c =? checkpoint ship + 1); [right; simpl; auto|].
  destruct (checkpoint ship + 1 <? c).
  - left. cbn [lap set_lap currentLaptime].
    destruct (currentLaptime ship <? lap ship + 1) eqn:Hnew; simpl;
      rewrite ?Hnew; auto.
  - right. destruct (c <? checkpoint ship - 1); simpl; auto.
Qed.

Lemma next_ship_ok (map : Track) (dt : Q) (st : GameState * Q)
    (ship : Ship) (body : Body) :
  lap_timer_ok ship -> lap_timer_ok (next_ship map dt st ship body).2.
Proof.
  intros Hok. pose proof (timed_length dt ship Hok) as Hlen.
  destruct Hok as (Hpos & Hlast & Hlap).
  pose proof (next_ship_timer map dt st ship body) as Hn. cbv zeta in Hn.
  unfold lap_timer_ok.
  destruct Hn as [[Hl Hcur] | (Hl & -> & ->)].
  - destruct (currentLaptime ship <? lap ship + 1) eqn:Hnew;
      destruct Hcur as [-> ->]; rewrite Hl.
    + rewrite length_app, Hlen. simpl. lia.
    + rewrite Hlen. lia.
  - rewrite Hlen. destruct Hl as [-> | ->]; lia.
Qed.

(** [evolve] keeps the lap timers of all vessels sound. *)
Lemma evolve_ok (t : Turn) (map : Track) (world : World)
    (bodies : list (option Body)) (dt : Q) (t' : Turn) :
  ships_ok (ships t) -> evolve t map world bodies dt = Some t' ->
  ships_ok (ships t').
Proof.
  intros Hok Hev.
  assert (ships_ok (working_ships t)) as Hwork
    by by apply consume_server_events_ok.
  destruct (detection_input_total t world bodies dt)
    as (ships3 & stepped & Hdet & _ & Hships).
  destruct (evolve_slot t map world bodies dt ships3 stepped (state t, counter t) Hdet)
    as (t'' & Hev' & Hslot & _).
  rewrite Hev in Hev'. injection Hev' as <-.
  intros i ship'. rewrite Hslot. cbv zeta.
  destruct (js_get stepped i) as [body|];
    [|by destruct (match_resets t)].
  specialize (Hships i).
  destruct (js_get ships3 i) as [ship3|]; [|by destruct (match_resets t)].
  destruct (js_get (working_ships t) i) as [ship|] eqn:Hship; [|done].
  simpl in Hships. injection Hships as ->.
  destruct (match_resets t); simpl; intros [= <-].
  - apply reset_ship_ok.
  - apply next_ship_ok. by apply (Hwork i ship).
Qed.

Lemma reachable_ok (t : Turn) : reachable t -> ships_ok (ships t).
Proof.
  induction 1 as [state0 counter0 | t shipId evs _ IH | t evs _ IH
                  | t map world bodies dt t' _ IH Hev].
  - intros i ship. cbn [ships]. by rewrite js_get_nil.
  - unfold addEvents.
    by destruct (foldl add_event (default [] (js_get (events t) shipId), false) evs).
  - done.
  - by eapply evolve_ok.
Qed.

(** C10. In every turn reached from a turn without vessels by queueing
    events and applying [evolve], every live vessel has [currentLaptime]
    equal to the length of [laptimes] minus one, and [currentLaptime] is an
    index of [laptimes]. *)
Theorem reachable_lap_timer (t : Turn) (i : nat) (ship : Ship) :
  reachable t ->
  js_get (ships t) i = Some ship ->
  currentLaptime ship = Z.of_nat (length (laptimes ship)) - 1
  /\ 0 <= currentLaptime ship
  /\ is_Some (laptimes ship !! Z.to_nat (currentLaptime ship)).
Proof.
  intros Hreach Hship.
  destruct (reachable_ok t Hreach i ship Hship) as (Hpos & Hlast & _).
  split_and!; [done | done |].
  apply lookup_lt_is_Some. lia.
Qed.

End LapTimer.

Lemma reachable_lap_timer_witness :
  exists t ship,
    first_turn = Some t
    /\ js_get (ships t) 0 = Some ship
    /\ currentLaptime ship = Z.of_nat (length (laptimes ship)) - 1
    /\ currentLaptime ship = 0.
Proof.
  assert (exists t ship, first_turn = Some t /\ js_get (ships t) 0 = Some ship
                         /\ currentLaptime ship = 0)
    as (t & ship & Hfirst & Hship & Hzero).
  { do 2 eexists. split_and!; vm_compute; reflexivity. }
  exists t, ship.
  destruct (@reachable_lap_timer example_constants example_methods
              example_cells example_physics t 0%nat ship) as (Hlast & _ & _).
  - eapply reachable_evolve; [|exact Hfirst].
    apply reachable_addServerEvent, reachable_new.
  - exact Hship.
  - by split_and!.
Defined.

(** * Further properties *)

(** ** Spawn poses *)

(** X1. Two different slots spawn at least 3 apart along the line of spawn
    poses, more than the width 2 of a ship's box. *)
Theorem spawn_poses_apart (j k : nat) :
  (j < k)%nat ->
  (fst (positionForShipId j) + 3 <= fst (positionForShipId k))%Q.
Proof.
  intros Hlt. unfold positionForShipId. cbn [fst].
  unfold Qle, Qplus, Qmult, inject_Z. simpl. lia.
Qed.

Lemma spawn_poses_apart_witness :
  (fst (positionForShipId 1) + 3 <= fst (positionForShipId 2))%Q.
Proof. apply (spawn_poses_apart 1 2). lia. Defined.

(** ** Slot reservation *)

Lemma slot_taken_false (t : Turn) (k : nat) :
  slot_taken t (reservedSlots t) k = false <-> slot_free t k.
Proof.
  rewrite <- not_true_iff_false, slot_taken_spec. unfold slot_free. split.
  - intros Hno. split.
    + destruct (js_get (ships t) k) eqn:Hget; [|done].
      exfalso. apply Hno. left. by eexists.
    + intros Hq. apply Hno. by right.
  - intros [Hget Hq] [[s Hs] | Hs]; [congruence | done].
Qed.

(** [getFreeShipSlot] returns [k] exactly when [k] is the lowest free
    slot. *)
Lemma getFreeShipSlot_iff (t : Turn) (k : nat) :
  getFreeShipSlot t = Some k
  <-> slot_free t k /\ forall j, (j < k)%nat -> ~ slot_free t j.
Proof.
  destruct (free_slot_loop_spec t (reservedSlots t) (slot_bound t)
              (S (slot_bound t)) 0 (slot_bound_free t))
    as (k0 & Hk0 & _ & Hfree & Hbelow); [lia | lia |].
  fold (getFreeShipSlot t) in Hk0. rewrite Hk0.
  apply slot_taken_false in Hfree.
  assert (forall j, (j < k0)%nat -> ~ slot_free t j) as Hbelow'.
  { intros j Hj Hjfree. apply slot_taken_false in Hjfree.
    rewrite Hbelow in Hjfree by lia. done. }
  split.
  - by intros [= <-].
  - intros [Hkfree Hkbelow]. f_equal.
    destruct (Nat.lt_trichotomy k0 k) as [Hlt | [-> | Hgt]]; [|done|].
    + by destruct (Hkbelow k0 Hlt).
    + by destruct (Hbelow' k Hgt).
Qed.

Lemma getFreeShipSlot_is_Some (t : Turn) : exists k, getFreeShipSlot t = Some k.
Proof.
  destruct (free_slot_loop_spec t (reservedSlots t) (slot_bound t)
              (S (slot_bound t)) 0 (slot_bound_free t))
    as (k0 & Hk0 & _); [lia | lia |]. by exists k0.
Qed.

Lemma spawn_queued_addServerEvent (t : Turn) (sev : ServerEvent) (k : nat) :
  spawn_queued (addServerEvent t [sev]).1 k
  <-> spawn_queued t k \/ (sev_type sev = SPAWN_PLAYER /\ sev_val sev = k).
Proof.
  unfold spawn_queued, addServerEvent. cbn [fst serverEvents]. split.
  - intros (sev' & Hin & Hty & Hval).
    apply elem_of_app in Hin as [Hin | Hin].
    + left. by exists sev'.
    + apply list_elem_of_singleton in Hin as ->. by right.
  - intros [(sev' & Hin & Hty & Hval) | [Hty Hval]].
    + exists sev'. split_and!; [|done|done]. apply elem_of_app. by left.
    + exists sev. split_and!; [|done|done]. apply elem_of_app. right.
      by apply list_elem_of_singleton.
Qed.

(** X2. A slot that was reserved and queued is not handed out again: after
    a SPAWN_PLAYER event for the slot [getFreeShipSlot] returned is queued,
    the next call returns a higher slot. *)
Theorem getFreeShipSlot_after_spawn (t : Turn) (sev : ServerEvent) (k : nat) :
  getFreeShipSlot t = Some k ->
  sev_type sev = SPAWN_PLAYER ->
  sev_val sev = k ->
  exists k', getFreeShipSlot (addServerEvent t [sev]).1 = Some k'
             /\ (k < k')%nat.
Proof.
  intros Hk Hty Hval.
  destruct (getFreeShipSlot_is_Some (addServerEvent t [sev]).1) as [k' Hk'].
  exists k'. split; [done|].
  apply getFreeShipSlot_iff in Hk as [_ Hbelow].
  apply getFreeShipSlot_iff in Hk' as [[Hget' Hq'] _].
  destruct (Nat.lt_trichotomy k k') as [Hlt | [<- | Hgt]]; [done | |].
  - exfalso. apply Hq'. apply spawn_queued_addServerEvent. by right.
  - exfalso. apply (Hbelow k' Hgt). split; [done|].
    intros Hq. apply Hq'. apply spawn_queued_addServerEvent. by left.
Qed.

Lemma getFreeShipSlot_after_spawn_witness :
  getFreeShipSlot busy_turn = Some 3%nat
  /\ exists k',
       getFreeShipSlot
         (addServerEvent busy_turn [mkServerEvent SPAWN_PLAYER 3 "cat" 3]).1
       = Some k' /\ (3 < k')%nat.
Proof.
  split; [reflexivity|].
  exact (getFreeShipSlot_after_spawn busy_turn
           (mkServerEvent SPAWN_PLAYER 3 "cat" 3) 3 eq_refl eq_refl eq_refl).
Defined.

(** X3. A queued DESTROY_PLAYER event frees no slot within the tick:
    [getFreeShipSlot] returns the same slot with and without it. *)
Theorem getFreeShipSlot_ignores_destroy (t : Turn) (sev : ServerEvent) :
  sev_type sev = DESTROY_PLAYER ->
  getFreeShipSlot (addServerEvent t [sev]).1 = getFreeShipSlot t.
Proof.
  intros Hty.
  destruct (getFreeShipSlot_is_Some t) as [k Hk]. rewrite Hk.
  apply getFreeShipSlot_iff in Hk as [[Hget Hq] Hbelow].
  assert (forall j, spawn_queued (addServerEvent t [sev]).1 j <-> spawn_queued t j)
    as Hsame.
  { intros j. rewrite spawn_queued_addServerEvent. split; [|by left].
    intros [? | [Hspawn _]]; [done | congruence]. }
  apply getFreeShipSlot_iff. split.
  - split; [done|]. by rewrite Hsame.
  - intros j Hj [Hjget Hjq]. apply (Hbelow j Hj). split; [done|].
    by rewrite <- Hsame.
Qed.

Lemma getFreeShipSlot_ignores_destroy_witness :
  js_get (ships busy_turn) 0 = Some (example_ship 0 1)
  /\ getFreeShipSlot
       (addServerEvent busy_turn [mkServerEvent DESTROY_PLAYER 0 "" 0]).1
     = Some 3%nat.
Proof.
  split; [reflexivity|].
  rewrite (getFreeShipSlot_ignores_destroy busy_turn
             (mkServerEvent DESTROY_PLAYER 0 "" 0) eq_refl).
  reflexivity.
Defined.

(** ** The input queue *)

(** [evs.forEach] only appends to the queue: what it adds is a part of
    [evs], in order, and the flag is raised exactly when something is
    added. *)
Lemma add_events_appends (evs queue : list GameEvent) (changed : bool) :
  exists added,
    foldl add_event (queue, changed) evs
    = (queue ++ added, changed || negb (bool_decide (added = [])))
    /\ sublist added evs.
Proof.
  revert queue changed. induction evs as [|ev evs IH]; intros queue changed.
  - exists []. cbn [foldl]. rewrite app_nil_r, orb_false_r. by split.
  - cbn [foldl]. unfold add_event at 2.
    destruct (find_related (rev queue) ev) as [exEv|].
    + case_bool_decide.
      * destruct (IH queue changed) as (added & -> & Hsub).
        exists added. split; [done | by apply sublist_cons].
      * destruct (IH (queue ++ [ev]) true) as (added & -> & Hsub).
        exists (ev :: added). rewrite <- app_assoc. simpl.
        rewrite orb_true_r. split; [done | by apply sublist_skip].
    + destruct (IH (queue ++ [ev]) true) as (added & -> & Hsub).
      exists (ev :: added). rewrite <- app_assoc. simpl.
      rewrite orb_true_r. split; [done | by apply sublist_skip].
Qed.

(** X4. [addEvents] never drops or reorders what is queued: the new queue
    of the slot is the old one followed by some of the given events, in
    their order, and the returned flag is [true] exactly when at least one
    event was appended. *)
Theorem addEvents_appends (t : Turn) (shipId : nat) (evs : list GameEvent) :
  exists added,
    js_get (events (addEvents t shipId evs).1) shipId
    = Some (queue_of t shipId ++ added)
    /\ sublist added evs
    /\ ((addEvents t shipId evs).2 = true <-> added <> []).
Proof.
  unfold addEvents, queue_of.
  destruct (add_events_appends evs (default [] (js_get (events t) shipId)) false)
    as (added & -> & Hsub).
  exists added. cbn [fst snd events set_events]. split_and!.
  - apply js_get_set_eq.
  - done.
  - simpl. rewrite negb_true_iff, bool_decide_eq_false. done.
Qed.

(** X5. [addEvents] touches nothing but the queue of its slot: the vessels,
    the server events, the phase, the countdown and the queues of the other
    slots stay, and so does the slot [getFreeShipSlot] returns. *)
Theorem addEvents_frame (t : Turn) (shipId : nat) (evs : list GameEvent) :
  let t' := (addEvents t shipId evs).1 in
  ships t' = ships t
  /\ serverEvents t' = serverEvents t
  /\ state t' = state t
  /\ counter t' = counter t
  /\ getFreeShipSlot t' = getFreeShipSlot t
  /\ forall j, j <> shipId -> js_get (events t') j = js_get (events t) j.
Proof.
  cbv zeta. unfold addEvents.
  destruct (foldl add_event (default [] (js_get (events t) shipId), false) evs)
    as [queue changed].
  cbn [fst]. split_and!; [reflexivity | reflexivity | reflexivity | reflexivity | |].
  - destruct (getFreeShipSlot_is_Some t) as [k Hk]. rewrite Hk.
    apply getFreeShipSlot_iff. apply getFreeShipSlot_iff in Hk. exact Hk.
  - intros j Hj. cbn [events set_events]. by apply js_get_set_ne.
Qed.

(** X6. An event whose value differs from the most recently queued event of
    its type, or whose type is not queued yet, is appended to the queue of
    the slot, and [addEvents] returns [true]. *)
Theorem addEvents_new_value (t : Turn) (shipId : nat) (ev : GameEvent) :
  ev_val <$> last_of_type (queue_of t shipId) ev <> Some (ev_val ev) ->
  js_get (events (addEvents t shipId [ev]).1) shipId
  = Some (queue_of t shipId ++ [ev])
  /\ (addEvents t shipId [ev]).2 = true.
Proof.
  intros Hnew. unfold addEvents. fold (queue_of t shipId). cbn [foldl].
  unfold add_event. rewrite find_related_last.
  destruct (last_of_type (queue_of t shipId) ev) as [exEv|]; simpl in Hnew.
  - rewrite bool_decide_eq_false_2 by congruence.
    cbn [fst snd events set_events]. by rewrite js_get_set_eq.
  - cbn [fst snd events set_events]. by rewrite js_get_set_eq.
Qed.

Lemma addEvents_new_value_witness :
  js_get (events (addEvents queued_turn 0 [mkGameEvent GAS false]).1) 0
  = Some [mkGameEvent GAS false; mkGameEvent BOOST false; mkGameEvent GAS true;
          mkGameEvent GAS false]
  /\ (addEvents queued_turn 0 [mkGameEvent GAS false]).2 = true.
Proof.
  refine (addEvents_new_value queued_turn 0 (mkGameEvent GAS false) _).
  vm_compute. discriminate.
Defined.

(** ** evolve: what every call gives *)

Lemma consume_server_events_unnamed (sevs : list ServerEvent) (k : nat)
    (acc : list (option Ship) * list (option Body)) :
  unnamed k sevs ->
  js_get (foldl consume_server_event acc sevs).1 k = js_get acc.1 k.
Proof.
  revert acc. induction sevs as [|sev sevs IH]; intros acc Hun; [done|].
  cbn [foldl].
  assert (sev_val sev <> k) as Hne by (apply Hun; left).
  assert (unnamed k sevs) as Hun' by (intros sev' Hin; apply Hun; by right).
  rewrite IH by done. destruct acc as [ships0 bodies0].
  unfold consume_server_event. destruct (sev_type sev); cbn [fst].
  - by apply js_get_set_ne.
  - by apply js_get_delete_ne.
Qed.

(** The slot a server event names holds, after the whole queue, what that
    event left there when no later event names the slot. *)
Lemma working_ships_last (t : Turn) (sevs1 sevs2 : list ServerEvent)
    (sev : ServerEvent) :
  serverEvents t = sevs1 ++ sev :: sevs2 ->
  unnamed (sev_val sev) sevs2 ->
  js_get (working_ships t) (sev_val sev) =
  match sev_type sev with
  | SPAWN_PLAYER =>
      Some (spawn_ship sev (new_Body (positionForShipId (sev_val sev))))
  | DESTROY_PLAYER => None
  end.
Proof.
  intros Hq Hun. unfold working_ships, consume_server_events. rewrite Hq.
  rewrite foldl_app. cbn [foldl].
  rewrite consume_server_events_unnamed by done.
  destruct (foldl consume_server_event (ships t, []) sevs1) as [ships1 bodies1].
  unfold consume_server_event. destruct (sev_type sev); cbn [fst].
  - apply js_get_set_eq.
  - apply js_get_delete_eq.
Qed.

Section EvolveExtras.
Context `{Constants, ShipMethods, TrackCells, Physics}.

Lemma state_machine_queues (st : GameState * Q)
    (ships4 nextShips : list (option Ship)) :
  events (state_machine st ships4 nextShips) = []
  /\ serverEvents (state_machine st ships4 nextShips) = [].
Proof.
  destruct st as [state0 counter0]. unfold state_machine.
  destruct state0; simpl; try done.
  - by destruct (Qeq_bool _ 0 || every_finished ships4).
  - by destruct (Qeq_bool _ 0).
Qed.

(** X7. [evolve] takes no error path, whatever the turn, the track and the
    body pool: every live ship has a body when its input is applied.  The
    turn it returns has both event queues empty. *)
Theorem evolve_returns (t : Turn) (map : Track) (world : World)
    (bodies : list (option Body)) (dt : Q) :
  exists t', evolve t map world bodies dt = Some t'
    /\ events t' = []
    /\ serverEvents t' = [].
Proof.
  destruct (detection_input_total t world bodies dt)
    as (ships3 & stepped & Hdet & _ & _).
  eexists. split; [by apply evolve_detection|].
  cbv zeta. apply state_machine_queues.
Qed.

Lemma next_ship_identity (map : Track) (dt : Q) (st : GameState * Q)
    (ship : Ship) (body : Body) :
  username (next_ship map dt st ship body).2 = username ship
  /\ color (next_ship map dt st ship body).2 = color ship.
Proof.
  unfold next_ship.
  repeat match goal with
         | |- context [if ?b then _ else _] => destruct b
         end; done.
Qed.

(** The name and colour a slot carries through [evolve]. *)
Lemma evolve_keeps_identity_aux (t : Turn) (map : Track) (world : World)
    (bodies : list (option Body)) (dt : Q) (i : nat) :
  exists t', evolve t map world bodies dt = Some t'
    /\ username <$> js_get (ships t') i = username <$> js_get (working_ships t) i
    /\ color <$> js_get (ships t') i = color <$> js_get (working_ships t) i.
Proof.
  destruct (detection_input_total t world bodies dt)
    as (ships3 & stepped & Hdet & Hcov & Hships).
  destruct (evolve_slot t map world bodies dt ships3 stepped (state t, counter t) Hdet)
    as (t' & Hev & Hslot & _).
  exists t'. split; [done|]. rewrite Hslot. cbv zeta.
  specialize (Hships i). pose proof (Hcov i) as Hc.
  destruct (js_get (working_ships t) i) as [ship|]; simpl in Hships.
  - destruct (Hc _ Hships) as [body ->]. rewrite Hships.
    destruct (next_ship_identity map dt (state t, counter t)
                (set_input (resolved_input (state t)
                              (default [] (js_get (events t) i)) ship) ship) body)
      as [Hname Hcolor].
    destruct (match_resets t); simpl; by rewrite ?Hname, ?Hcolor.
  - rewrite Hships. by destruct (js_get stepped i), (match_resets t).
Qed.

(** X8. [evolve] keeps the players in their slots: the returned turn holds
    a vessel in slot [i] exactly when the working ships do, and that vessel
    carries the same name and colour, also through a match reset. *)
Theorem evolve_keeps_identity (t : Turn) (map : Track) (world : World)
    (bodies : list (option Body)) (dt : Q) (i : nat) :
  exists t', evolve t map world bodies dt = Some t'
    /\ (is_Some (js_get (ships t') i) <-> is_Some (js_get (working_ships t) i))
    /\ username <$> js_get (ships t') i = username <$> js_get (working_ships t) i
    /\ color <$> js_get (ships t') i = color <$> js_get (working_ships t) i.
Proof.
  destruct (evolve_keeps_identity_aux t map world bodies dt i)
    as (t' & Hev & Hname & Hcolor).
  destruct (evolve_live t map world bodies dt) as (t'' & Hev' & Hlive).
  rewrite Hev in Hev'. injection Hev' as <-.
  exists t'. by split_and!.
Qed.

(** X9. A vessel whose slot is named last by a DESTROY_PLAYER event is gone
    from the returned turn: the slot is empty. *)
Theorem evolve_destroys (t : Turn) (map : Track) (world : World)
    (bodies : list (option Body)) (dt : Q)
    (sevs1 sevs2 : list ServerEvent) (sev : ServerEvent) :
  serverEvents t = sevs1 ++ sev :: sevs2 ->
  sev_type sev = DESTROY_PLAYER ->
  unnamed (sev_val sev) sevs2 ->
  exists t', evolve t map world bodies dt = Some t'
    /\ js_get (ships t') (sev_val sev) = None.
Proof.
  intros Hq Hty Hun.
  destruct (evolve_live t map world bodies dt) as (t' & Hev & Hlive).
  exists t'. split; [done|].
  pose proof (working_ships_last t sevs1 sevs2 sev Hq Hun) as Hwork.
  rewrite Hty in Hwork.
  destruct (js_get (ships t') (sev_val sev)) as [ship|] eqn:Hship; [|done].
  destruct (proj1 (Hlive (sev_val sev))) as [ship0 Hship0]; [by eexists|].
  congruence.
Qed.

(** X10. The vessel of the last SPAWN_PLAYER event that names a slot is the
    one the returned turn holds there, under the name and colour of that
    event, whatever the slot held and whatever was queued for it before. *)
Theorem evolve_spawns_last (t : Turn) (map : Track) (world : World)
    (bodies : list (option Body)) (dt : Q)
    (sevs1 sevs2 : list ServerEvent) (sev : ServerEvent) :
  serverEvents t = sevs1 ++ sev :: sevs2 ->
  sev_type sev = SPAWN_PLAYER ->
  unnamed (sev_val sev) sevs2 ->
  exists t' ship', evolve t map world bodies dt = Some t'
    /\ js_get (ships t') (sev_val sev) = Some ship'
    /\ username ship' = sev_username sev
    /\ color ship' = sev_color sev.
Proof.
  intros Hq Hty Hun.
  destruct (evolve_keeps_identity_aux t map world bodies dt (sev_val sev))
    as (t' & Hev & Hname & Hcolor).
  pose proof (working_ships_last t sevs1 sevs2 sev Hq Hun) as Hwork.
  rewrite Hty in Hwork. rewrite Hwork in Hname, Hcolor. simpl in Hname, Hcolor.
  destruct (js_get (ships t') (sev_val sev)) as [ship'|] eqn:Hship'; [|done].
  simpl in Hname, Hcolor. exists t', ship'.
  split_and!; [done | done | congruence | congruence].
Qed.

(** X11. [evolve] never moves the phase backwards: FINISH_COUNTDOWN is not
    followed by IN_PROGRESS, nor RESULTS_SCREEN by FINISH_COUNTDOWN. *)
Theorem evolve_phase_order (t : Turn) (map : Track) (world : World)
    (bodies : list (option Body)) (dt : Q) :
  exists t', evolve t map world bodies dt = Some t'
    /\ match state t, state t' with
       | FINISH_COUNTDOWN, IN_PROGRESS => False
       | RESULTS_SCREEN, FINISH_COUNTDOWN => False
       | _, _ => True
       end.
Proof.
  destruct (detection_input_total t world bodies dt)
    as (ships3 & stepped & Hdet & _ & _).
  destruct (evolve_slot t map world bodies dt ships3 stepped (state t, counter t) Hdet)
    as (t' & Hev & _ & Hphase).
  exists t'. split; [done|]. cbv zeta in Hphase.
  pose proof (next_ships_from_state map dt stepped 0 (state t, counter t) ships3)
    as Hst.
  destruct Hst as [Hst | [Hin Hst]]; rewrite Hst in Hphase; simpl in Hphase.
  - destruct (state t); simpl in Hphase.
    + done.
    + destruct (Qeq_bool _ 0 || _); injection Hphase as Hs _; by rewrite Hs.
    + destruct (Qeq_bool _ 0); injection Hphase as Hs _; by rewrite Hs.
  - simpl in Hin. by rewrite Hin.
Qed.

End EvolveExtras.

Lemma unnamed_nil (k : nat) : unnamed k [].
Proof. intros sev Hin. by apply elem_of_nil in Hin. Qed.

Lemma evolve_destroys_witness :
  js_get (ships busy_turn) 2 = Some (example_ship 1 2)
  /\ exists t', example_evolve busy_turn [] = Some t'
       /\ js_get (ships t') 2 = None.
Proof.
  split; [reflexivity|].
  exact (@evolve_destroys example_constants example_methods example_cells
           example_physics busy_turn example_track tt [] 16
           [mkServerEvent SPAWN_PLAYER 1 "bob" 2] []
           (mkServerEvent DESTROY_PLAYER 2 "" 0)
           eq_refl eq_refl (unnamed_nil 2)).
Defined.

Lemma evolve_spawns_last_witness :
  exists t' ship', example_evolve respawn_turn [] = Some t'
    /\ js_get (ships t') 0 = Some ship'
    /\ username ship' = "cat"%string
    /\ color ship' = 3.
Proof.
  exact (@evolve_spawns_last example_constants example_methods example_cells
           example_physics respawn_turn example_track tt [] 16
           [mkServerEvent DESTROY_PLAYER 0 "" 0] []
           (mkServerEvent SPAWN_PLAYER 0 "cat" 3)
           eq_refl eq_refl (unnamed_nil 0)).
Defined.

(** ** evolve: checkpoints, laps and lap times *)

Section DetectionExtras.
Context `{Constants, ShipMethods, TrackCells, Physics}.

(** Without a match reset, slot [i] of the returned turn is what
    [bodies.map] made of the working ship and its stepped body. *)
Lemma evolve_next (t : Turn) (map : Track) (world : World)
    (bodies : list (option Body)) (dt : Q) (i : nat)
    (ships3 : list (option Ship)) (stepped : list (option Body))
    (ship : Ship) (body : Body) :
  detection_input t world bodies dt = Some (ships3, stepped) ->
  js_get ships3 i = Some ship ->
  js_get stepped i = Some body ->
  match_resets t = false ->
  exists t', evolve t map world bodies dt = Some t'
    /\ js_get (ships t') i
       = Some (next_ship map dt (state t, counter t) ship body).2.
Proof.
  intros Hdet Hship Hbody Hno.
  destruct (evolve_slot t map world bodies dt ships3 stepped (state t, counter t) Hdet)
    as (t' & Hev & Hslot & _).
  exists t'. split; [done|]. rewrite Hslot. cbv zeta.
  by rewrite Hship, Hbody, Hno.
Qed.

(** A cell whose checkpoint is the ship's or next to it: no lap is
    counted. *)
Lemma next_ship_step (map : Track) (dt : Q) (st : GameState * Q)
    (ship : Ship) (body : Body) (c : Z) :
  cell_checkpoint map body = Some c ->
  checkpoint ship - 1 <= c <= checkpoint ship + 1 ->
  next_ship map dt st ship body =
  (st, ship,
   mkShip (body_position body) (body_velocity body) (body_angle body)
          (username ship) (color ship) (input ship)
          c (lap ship) (currentLaptime ship) (timed dt ship)).
Proof.
  intros Hcell Hnear. unfold next_ship, timed. rewrite Hcell. simpl.
  destruct (c =? checkpoint ship) eqn:E1; [done|].
  destruct (c =? checkpoint ship - 1) eqn:E2; [done|].
  destruct (c =? checkpoint ship + 1) eqn:E3; [done|]. lia.
Qed.

(** A cell whose checkpoint is more than one below the ship's: the lap is
    taken back. *)
Lemma next_ship_back (map : Track) (dt : Q) (st : GameState * Q)
    (ship : Ship) (body : Body) (c : Z) :
  cell_checkpoint map body = Some c ->
  c < checkpoint ship - 1 ->
  next_ship map dt st ship body =
  (st, set_lap (lap ship - 1) ship,
   mkShip (body_position body) (body_velocity body) (body_angle body)
          (username ship) (color ship) (input ship)
          c (lap ship - 1) (currentLaptime ship) (timed dt ship)).
Proof.
  intros Hcell Hlt. unfold next_ship, timed. rewrite Hcell. simpl.
  replace (c =? checkpoint ship) with false by lia.
  replace (c =? checkpoint ship - 1) with false by lia.
  replace (c =? checkpoint ship + 1) with false by lia.
  replace (checkpoint ship + 1 <? c) with false by lia.
  by replace (c <? checkpoint ship - 1) with true by lia.
Qed.

(** X12. A working vessel whose stepped body lies on a cell with its own
    checkpoint or a neighbouring one (one below: progress; one above: going
    backwards) takes the checkpoint of the cell and keeps its lap and its
    currentLaptime; no lap time is added or removed.  This holds in the
    returned turn unless the call resets the match. *)
Theorem evolve_checkpoint_step (t : Turn) (map : Track) (world : World)
    (bodies : list (option Body)) (dt : Q) (i : nat)
    (ships3 : list (option Ship)) (stepped : list (option Body))
    (ship : Ship) (body : Body) (c : Z) :
  detection_input t world bodies dt = Some (ships3, stepped) ->
  js_get ships3 i = Some ship ->
  js_get stepped i = Some body ->
  cell_checkpoint map body = Some c ->
  checkpoint ship - 1 <= c <= checkpoint ship + 1 ->
  match_resets t = false ->
  exists t' ship', evolve t map world bodies dt = Some t'
    /\ js_get (ships t') i = Some ship'
    /\ checkpoint ship' = c
    /\ lap ship' = lap ship
    /\ currentLaptime ship' = currentLaptime ship
    /\ laptimes ship' = timed dt ship.
Proof.
  intros Hdet Hship Hbody Hcell Hnear Hno.
  destruct (evolve_next t map world bodies dt i ships3 stepped ship body
              Hdet Hship Hbody Hno) as (t' & Hev & Hslot).
  rewrite (next_ship_step map dt _ ship body c) in Hslot by done.
  eexists t', _. by split_and!.
Qed.

Lemma add_laptime_length_lt (laptimes : list Laptime) (c : Z) (d : Q) :
  c < Z.of_nat (length laptimes) ->
  length (add_laptime laptimes c d) = length laptimes.
Proof.
  intros Hlt. unfold add_laptime. case_decide; [done|].
  destruct (laptimes !! Z.to_nat c) as [[q|]|] eqn:Hlook.
  - apply length_insert.
  - done.
  - apply lookup_ge_None in Hlook. lia.
Qed.

(** X13. A working vessel whose stepped body lies on a cell with a
    checkpoint more than one below its own has crossed the line backwards:
    its lap is one lower in the returned turn, currentLaptime stays, and
    the lap times are the ones "increase current lap's time" left, with no
    entry appended for a new lap.  When currentLaptime is below the length
    of laptimes, as in every reachable turn, the number of lap times stays
    too.  This holds unless the call resets the match. *)
Theorem evolve_backward_crossing (t : Turn) (map : Track) (world : World)
    (bodies : list (option Body)) (dt : Q) (i : nat)
    (ships3 : list (option Ship)) (stepped : list (option Body))
    (ship : Ship) (body : Body) (c : Z) :
  detection_input t world bodies dt = Some (ships3, stepped) ->
  js_get ships3 i = Some ship ->
  js_get stepped i = Some body ->
  cell_checkpoint map body = Some c ->
  c < checkpoint ship - 1 ->
  match_resets t = false ->
  exists t' ship', evolve t map world bodies dt = Some t'
    /\ js_get (ships t') i = Some ship'
    /\ checkpoint ship' = c
    /\ lap ship' = lap ship - 1
    /\ currentLaptime ship' = currentLaptime ship
    /\ laptimes ship' = timed dt ship
    /\ (currentLaptime ship < Z.of_nat (length (laptimes ship)) ->
        length (laptimes ship') = length (laptimes ship)).
Proof.
  intros Hdet Hship Hbody Hcell Hlt Hno.
  destruct (evolve_next t map world bodies dt i ships3 stepped ship body
              Hdet Hship Hbody Hno) as (t' & Hev & Hslot).
  rewrite (next_ship_back map dt _ ship body c) in Hslot by done.
  eexists t', _. split_and!; try done.
  cbn [laptimes]. intros Hin. unfold timed.
  destruct (negb (hasFinishedRace ship)); [|done].
  by apply add_laptime_length_lt.
Qed.

(** The lap times of the ship a slot yields start with the timed ones. *)
Lemma next_ship_laptimes (map : Track) (dt : Q) (st : GameState * Q)
    (ship : Ship) (body : Body) :
  laptimes (next_ship map dt st ship body).2 = timed dt ship
  \/ laptimes (next_ship map dt st ship body).2 = timed dt ship ++ [Seconds 0].
Proof.
  pose proof (next_ship_timer map dt st ship body) as Hn. cbv zeta in Hn.
  destruct Hn as [[_ Hcur] | (_ & _ & Hl)]; [|by left].
  destruct (currentLaptime ship <? lap ship + 1); destruct Hcur as [_ Hl];
    [by right | by left].
Qed.

(** X14. Every tick adds [dt / 1000] to the lap time an unfinished vessel
    is timing, and to no other: for a working vessel that has not finished
    and whose currentLaptime is the index of a number in laptimes, the
    returned turn has that entry grown by [dt / 1000] and every other entry
    it had unchanged.  This holds unless the call resets the match. *)
Theorem evolve_times_current_lap (t : Turn) (map : Track) (world : World)
    (bodies : list (option Body)) (dt : Q) (i : nat)
    (ships3 : list (option Ship)) (stepped : list (option Body))
    (ship : Ship) (body : Body) (q : Q) :
  detection_input t world bodies dt = Some (ships3, stepped) ->
  js_get ships3 i = Some ship ->
  js_get stepped i = Some body ->
  hasFinishedRace ship = false ->
  0 <= currentLaptime ship ->
  laptimes ship !! Z.to_nat (currentLaptime ship) = Some (Seconds q) ->
  match_resets t = false ->
  exists t' ship', evolve t map world bodies dt = Some t'
    /\ js_get (ships t') i = Some ship'
    /\ laptimes ship' !! Z.to_nat (currentLaptime ship)
       = Some (Seconds (q + dt / 1000)%Q)
    /\ forall j x, j <> Z.to_nat (currentLaptime ship) ->
         laptimes ship !! j = Some x -> laptimes ship' !! j = Some x.
Proof.
  intros Hdet Hship Hbody Hfin Hpos Hq Hno.
  destruct (evolve_next t map world bodies dt i ships3 stepped ship body
              Hdet Hship Hbody Hno) as (t' & Hev & Hslot).
  eexists t', _. split_and!; [done | done | |].
  - assert (timed dt ship !! Z.to_nat (currentLaptime ship)
            = Some (Seconds (q + dt / 1000)%Q)) as Htimed.
    { unfold timed, add_laptime. rewrite Hfin. simpl.
      rewrite decide_False by lia. rewrite Hq.
      apply list_lookup_insert_eq. by eapply lookup_lt_Some. }
    destruct (next_ship_laptimes map dt (state t, counter t) ship body)
      as [-> | ->]; [done|].
    by apply lookup_app_l_Some.
  - intros j x Hj Hx.
    assert (timed dt ship !! j = Some x) as Htimed.
    { unfold timed, add_laptime. rewrite Hfin. simpl.
      rewrite decide_False by lia. rewrite Hq.
      by rewrite list_lookup_insert_ne. }
    destruct (next_ship_laptimes map dt (state t, counter t) ship body)
      as [-> | ->]; [done|].
    by apply lookup_app_l_Some.
Qed.

(** X15. The clock of a vessel that has finished the race stands still:
    every lap time it had is unchanged in the returned turn, unless the call
    resets the match. *)
Theorem evolve_stops_clock (t : Turn) (map : Track) (world : World)
    (bodies : list (option Body)) (dt : Q) (i : nat)
    (ships3 : list (option Ship)) (stepped : list (option Body))
    (ship : Ship) (body : Body) :
  detection_input t world bodies dt = Some (ships3, stepped) ->
  js_get ships3 i = Some ship ->
  js_get stepped i = Some body ->
  hasFinishedRace ship = true ->
  match_resets t = false ->
  exists t' ship', evolve t map world bodies dt = Some t'
    /\ js_get (ships t') i = Some ship'
    /\ forall j x, laptimes ship !! j = Some x -> laptimes ship' !! j = Some x.
Proof.
  intros Hdet Hship Hbody Hfin Hno.
  destruct (evolve_next t map world bodies dt i ships3 stepped ship body
              Hdet Hship Hbody Hno) as (t' & Hev & Hslot).
  eexists t', _. split_and!; [done | done |].
  intros j x Hx.
  assert (timed dt ship = laptimes ship) as Htimed
    by (unfold timed; by rewrite Hfin).
  destruct (next_ship_laptimes map dt (state t, counter t) ship body)
    as [-> | ->]; rewrite Htimed; [done|].
  by apply lookup_app_l_Some.
Qed.

End DetectionExtras.

Lemma evolve_checkpoint_step_witness :
  exists t' ship', example_evolve progress_turn [] = Some t'
    /\ js_get (ships t') 0 = Some ship'
    /\ checkpoint ship' = 2
    /\ lap ship' = 3.
Proof.
  edestruct (@evolve_checkpoint_step example_constants example_methods
               example_cells example_physics progress_turn example_track tt [] 16
               0%nat) as (t' & ship' & Hev & Hship' & Hc & Hl & _).
  - vm_compute. reflexivity.
  - reflexivity.
  - reflexivity.
  - vm_compute. reflexivity.
  - vm_compute. split; discriminate.
  - reflexivity.
  - exists t', ship'. split_and!; [exact Hev | exact Hship' | exact Hc | exact Hl].
Defined.

Lemma evolve_backward_crossing_witness :
  exists t' ship', example_evolve progress_turn [] = Some t'
    /\ js_get (ships t') 1 = Some ship'
    /\ checkpoint ship' = 1
    /\ lap ship' = 2
    /\ currentLaptime ship' = 3
    /\ length (laptimes ship') = 4%nat.
Proof.
  edestruct (@evolve_backward_crossing example_constants example_methods
               example_cells example_physics progress_turn example_track tt [] 16
               1%nat) as (t' & ship' & Hev & Hship' & Hc & Hl & Hcur & _ & Hlen).
  - vm_compute. reflexivity.
  - reflexivity.
  - reflexivity.
  - vm_compute. reflexivity.
  - vm_compute. reflexivity.
  - reflexivity.
  - exists t', ship'.
    split_and!; [exact Hev | exact Hship' | exact Hc | exact Hl | exact Hcur |].
    apply Hlen. vm_compute. reflexivity.
Defined.

Lemma evolve_times_current_lap_witness :
  exists t' ship', example_evolve progress_turn [] = Some t'
    /\ js_get (ships t') 0 = Some ship'
    /\ laptimes ship' !! 3%nat = Some (Seconds (5 + 16 / 1000)%Q)
    /\ laptimes ship' !! 0%nat = Some (Seconds 40).
Proof.
  edestruct (@evolve_times_current_lap example_constants example_methods
               example_cells example_physics progress_turn example_track tt [] 16
               0%nat) as (t' & ship' & Hev & Hship' & Hcur & Hrest).
  - vm_compute. reflexivity.
  - reflexivity.
  - reflexivity.
  - reflexivity.
  - vm_compute. discriminate.
  - reflexivity.
  - reflexivity.
  - exists t', ship'. split_and!; [exact Hev | exact Hship' | exact Hcur |].
    apply Hrest; [vm_compute; lia | reflexivity].
Defined.

Lemma evolve_stops_clock_witness :
  exists t' ship', example_evolve finished_turn [] = Some t'
    /\ js_get (ships t') 0 = Some ship'
    /\ laptimes ship' !! 3%nat = Some (Seconds 5).
Proof.
  edestruct (@evolve_stops_clock example_constants example_methods
               example_cells example_physics finished_turn example_track tt [] 16
               0%nat) as (t' & ship' & Hev & Hship' & Hkeep).
  - vm_compute. reflexivity.
  - reflexivity.
  - reflexivity.
  - reflexivity.
  - reflexivity.
  - exists t', ship'. split_and!; [exact Hev | exact Hship' |].
    apply Hkeep. reflexivity.
Defined.

(** ** evolve: the phases *)

Section PhaseExtras.
Context `{Constants, ShipMethods, TrackCells, Physics}.

(** No ship finishing the race leaves the phase and countdown as they
    were. *)
Lemma next_ships_from_no_finish (map : Track) (dt : Q)
    (bodies : list (option Body)) :
  forall (i0 : nat) (st : GameState * Q) (ships : list (option Ship)),
    (forall j ship body,
       js_get bodies j = Some body -> js_get ships (i0 + j) = Some ship ->
       newly_finished map ship body = false) ->
    (next_ships_from map dt i0 bodies st ships).1.1 = st.
Proof.
  induction bodies as [|ob bodies IH]; intros i0 st ships Hnone; [done|].
  cbn [next_ships_from].
  set (slot := match ob, js_get ships i0 with
               | Some body, Some ship =>
                   let '(st1, ship1, n) := next_ship map dt st ship body in
                   (st1, <[i0 := Some ship1]> ships, Some n)
               | _, _ => (st, ships, None)
               end).
  assert (slot.1.1 = st
          /\ forall k, k <> i0 -> js_get slot.1.2 k = js_get ships k)
    as [Hslot Hother].
  { subst slot. destruct ob as [body|]; [|done].
    destruct (js_get ships i0) as [ship|] eqn:Hship; [|done].
    pose proof (next_ship_state map dt st ship body) as Hst.
    rewrite (Hnone 0%nat ship body) in Hst;
      [| done | by replace (i0 + 0)%nat with i0 by lia].
    destruct (next_ship map dt st ship body) as [[st1 ship1] n1].
    simpl in *. split; [done|]. intros k Hk. by apply js_get_insert_ne. }
  destruct slot as [[st1 ships1] n]. simpl in Hslot, Hother. subst st1.
  specialize (IH (S i0) st ships1).
  destruct (next_ships_from map dt (S i0) bodies st ships1) as [[st2 ships2] ns].
  simpl in *. apply IH. intros j ship body Hbody Hship.
  apply (Hnone (S j) ship body); [done|].
  rewrite Hother in Hship by lia.
  by replace (i0 + S j)%nat with (S (i0 + j)) by lia.
Qed.

(** X16. IN_PROGRESS lasts until a vessel finishes: when the phase is
    IN_PROGRESS and no working vessel finishes the race by a lap counted in
    this call, the returned turn is IN_PROGRESS too, with the countdown
    decremented and rounded up. *)
Theorem evolve_keeps_racing (t : Turn) (map : Track) (world : World)
    (bodies : list (option Body)) (dt : Q)
    (ships3 : list (option Ship)) (stepped : list (option Body)) :
  detection_input t world bodies dt = Some (ships3, stepped) ->
  state t = IN_PROGRESS ->
  (forall i ship body,
     js_get ships3 i = Some ship -> js_get stepped i = Some body ->
     newly_finished map ship body = false) ->
  exists t', evolve t map world bodies dt = Some t'
    /\ state t' = IN_PROGRESS
    /\ counter t' = inject_Z (Qceiling (counter t - 1)).
Proof.
  intros Hdet Hstate Hnone.
  destruct (evolve_slot t map world bodies dt ships3 stepped (state t, counter t) Hdet)
    as (t' & Hev & _ & Hphase).
  exists t'. split; [done|]. cbv zeta in Hphase.
  rewrite next_ships_from_no_finish in Hphase
    by (intros j ship body Hbody Hship; by apply (Hnone j ship body)).
  simpl in Hphase. rewrite Hstate in Hphase. by injection Hphase as -> ->.
Qed.

(** X17. In phase FINISH_COUNTDOWN the returned turn shows the results as
    soon as the decremented countdown is zero or every working ship has
    finished, with the countdown set to RESULTS_SCREEN_S; otherwise it stays
    in FINISH_COUNTDOWN with the countdown decremented and rounded up. *)
Theorem evolve_finish_countdown (t : Turn) (map : Track) (world : World)
    (bodies : list (option Body)) (dt : Q)
    (ships3 : list (option Ship)) (stepped : list (option Body)) :
  detection_input t world bodies dt = Some (ships3, stepped) ->
  state t = FINISH_COUNTDOWN ->
  exists t', evolve t map world bodies dt = Some t'
    /\ (state t', counter t') =
       (let countdown := inject_Z (Qceiling (counter t - 1)) in
        if Qeq_bool countdown 0
           || every_finished (detected_ships t map dt ships3 stepped)
        then (RESULTS_SCREEN, RESULTS_SCREEN_S)
        else (FINISH_COUNTDOWN, countdown)).
Proof.
  intros Hdet Hstate.
  destruct (evolve_slot t map world bodies dt ships3 stepped (state t, counter t) Hdet)
    as (t' & Hev & _ & Hphase).
  exists t'. split; [done|]. cbv zeta in Hphase |- *.
  pose proof (next_ships_from_state map dt stepped 0 (state t, counter t) ships3)
    as Hst.
  destruct Hst as [Hst | [Hin _]]; [|simpl in Hin; congruence].
  rewrite Hst in Hphase. simpl in Hphase. by rewrite Hstate in Hphase.
Qed.

(** X18. The results screen stays until its countdown reaches zero: in
    phase RESULTS_SCREEN with a decremented countdown other than zero, the
    returned turn is in RESULTS_SCREEN with that countdown, and every slot
    of it holds the vessel that [bodies.map] made of the working ship and
    its stepped body: no vessel is put back on its spawn pose, none has its
    checkpoint, lap or lap times reset. *)
Theorem evolve_results_screen_waits (t : Turn) (map : Track) (world : World)
    (bodies : list (option Body)) (dt : Q)
    (ships3 : list (option Ship)) (stepped : list (option Body)) :
  detection_input t world bodies dt = Some (ships3, stepped) ->
  state t = RESULTS_SCREEN ->
  Qceiling (counter t - 1) <> 0 ->
  exists t', evolve t map world bodies dt = Some t'
    /\ state t' = RESULTS_SCREEN
    /\ counter t' = inject_Z (Qceiling (counter t - 1))
    /\ forall i,
         js_get (ships t') i =
         match js_get stepped i, js_get ships3 i with
         | Some body, Some ship =>
             Some (next_ship map dt (state t, counter t) ship body).2
         | _, _ => None
         end.
Proof.
  intros Hdet Hstate Hnz.
  destruct (evolve_slot t map world bodies dt ships3 stepped (state t, counter t) Hdet)
    as (t' & Hev & Hslot & Hphase).
  assert (Qeq_bool (inject_Z (Qceiling (counter t - 1))) 0 = false) as Hq.
  { apply not_true_iff_false. intros Heq. apply Qeq_bool_eq in Heq.
    apply Hnz. unfold Qeq, inject_Z in Heq. simpl in Heq. lia. }
  exists t'. split; [done|]. cbv zeta in Hphase.
  pose proof (next_ships_from_state map dt stepped 0 (state t, counter t) ships3)
    as Hst.
  destruct Hst as [Hst | [Hin _]]; [|simpl in Hin; congruence].
  rewrite Hst in Hphase. simpl in Hphase. rewrite Hstate, Hq in Hphase.
  injection Hphase as -> ->. split_and!; [done | done |].
  intros i. rewrite Hslot. cbv zeta.
  assert (match_resets t = false) as ->
    by (unfold match_resets; by rewrite Hq, andb_false_r).
  done.
Qed.

End PhaseExtras.

Lemma evolve_keeps_racing_witness :
  exists t', example_evolve progress_turn [] = Some t'
    /\ state t' = IN_PROGRESS
    /\ counter t' = (-1)%Q.
Proof.
  edestruct (@evolve_keeps_racing example_constants example_methods
               example_cells example_physics progress_turn example_track tt [] 16)
    as (t' & Hev & Hstate & Hcounter).
  - vm_compute. reflexivity.
  - reflexivity.
  - intros [|[|i]] ship body Hship Hbody.
    + injection Hship as <-. injection Hbody as <-. reflexivity.
    + injection Hship as <-. injection Hbody as <-. reflexivity.
    + discriminate.
  - exists t'. split_and!; [exact Hev | exact Hstate | exact Hcounter].
Defined.

Lemma evolve_finish_countdown_witness :
  exists t', example_evolve countdown_turn [] = Some t'
    /\ state t' = FINISH_COUNTDOWN
    /\ counter t' = 3%Q.
Proof.
  edestruct (@evolve_finish_countdown example_constants example_methods
               example_cells example_physics countdown_turn example_track tt [] 16)
    as (t' & Hev & Hphase).
  - vm_compute. reflexivity.
  - reflexivity.
  - exists t'. split; [exact Hev|]. cbv zeta in Hphase. split.
    + change (state t') with (state t', counter t').1. rewrite Hphase.
      vm_compute. reflexivity.
    + change (counter t') with (state t', counter t').2. rewrite Hphase.
      vm_compute. reflexivity.
Defined.

Lemma evolve_results_screen_waits_witness :
  exists t', example_evolve waiting_turn [] = Some t'
    /\ state t' = RESULTS_SCREEN
    /\ counter t' = 2%Q
    /\ checkpoint <$> js_get (ships t') 0 = Some 2
    /\ lap <$> js_get (ships t') 0 = Some 3
    /\ length <$> (laptimes <$> js_get (ships t') 0) = Some 4%nat.
Proof.
  edestruct (@evolve_results_screen_waits example_constants example_methods
               example_cells example_physics waiting_turn example_track tt [] 16)
    as (t' & Hev & Hstate & Hcounter & Hslot).
  - vm_compute. reflexivity.
  - reflexivity.
  - vm_compute. discriminate.
  - exists t'. rewrite (Hslot 0%nat).
    split_and!; [exact Hev | exact Hstate | exact Hcounter | | |];
      vm_compute; reflexivity.
Defined.

(** ** The clock of every reachable turn *)

Lemma add_laptime_seconds (laptimes : list Laptime) (c : Z) (d : Q) :
  0 <= c -> c = Z.of_nat (length laptimes) - 1 ->
  all_seconds laptimes -> all_seconds (add_laptime laptimes c d).
Proof.
  intros Hpos Hlast Hall. unfold add_laptime.
  rewrite decide_False by lia.
  destruct (laptimes !! Z.to_nat c) as [[q|]|] eqn:Hlook.
  - intros i x. destruct (decide (i = Z.to_nat c)) as [->|Hne].
    + rewrite list_lookup_insert_eq by (by eapply lookup_lt_Some).
      intros [= <-]. by eexists.
    + rewrite list_lookup_insert_ne by done. apply Hall.
  - done.
  - apply lookup_ge_None in Hlook. lia.
Qed.

Section ClockExtras.
Context `{Constants, ShipMethods, TrackCells, Physics}.

(** A property of vessels that spawning, the match reset, the input stage
    and the detection of a slot keep holds of every vessel of every
    reachable turn. *)
Lemma reachable_vessels (P : Ship -> Prop) :
  (forall sev body, P (spawn_ship sev body)) ->
  (forall i ship, P (reset_ship i ship)) ->
  (forall p ship, P ship -> P (set_input p ship)) ->
  (forall map dt st ship body, P ship -> P (next_ship map dt st ship body).2) ->
  forall t, reachable t -> forall i ship, js_get (ships t) i = Some ship -> P ship.
Proof.
  intros Hspawn Hreset Hinput Hnext t Hreach.
  induction Hreach as [state0 counter0 | t shipId evs _ IH | t evs _ IH
                       | t map world bodies dt t' _ IH Hev].
  - intros i ship. cbn [ships]. by rewrite js_get_nil.
  - unfold addEvents.
    by destruct (foldl add_event (default [] (js_get (events t) shipId), false) evs).
  - done.
  - assert (forall i ship, js_get (working_ships t) i = Some ship -> P ship)
      as Hwork.
    { unfold working_ships, consume_server_events.
      generalize (@nil (option Body)). revert IH.
      generalize (ships t) as ships0.
      induction (serverEvents t) as [|sev sevs IHs]; intros ships0 Hok bodies0;
        [done|].
      cbn [foldl]. unfold consume_server_event at 2.
      destruct (sev_type sev); apply IHs; intros i ship.
      - destruct (decide (sev_val sev = i)) as [->|Hne].
        + rewrite js_get_set_eq. intros [= <-]. apply Hspawn.
        + rewrite js_get_set_ne by done. apply Hok.
      - destruct (decide (sev_val sev = i)) as [->|Hne].
        + by rewrite js_get_delete_eq.
        + rewrite js_get_delete_ne by done. apply Hok. }
    destruct (detection_input_total t world bodies dt)
      as (ships3 & stepped & Hdet & _ & Hships).
    destruct (evolve_slot t map world bodies dt ships3 stepped (state t, counter t)
                Hdet) as (t'' & Hev' & Hslot & _).
    rewrite Hev in Hev'. injection Hev' as <-.
    intros i ship'. rewrite Hslot. cbv zeta.
    destruct (js_get stepped i) as [body|]; [|by destruct (match_resets t)].
    specialize (Hships i).
    destruct (js_get ships3 i) as [ship3|]; [|by destruct (match_resets t)].
    destruct (js_get (working_ships t) i) as [ship|] eqn:Hship; [|done].
    simpl in Hships. injection Hships as ->.
    destruct (match_resets t); simpl; intros [= <-].
    + apply Hreset.
    + apply Hnext, Hinput. by apply (Hwork i ship).
Qed.

Lemma next_ship_seconds (map : Track) (dt : Q) (st : GameState * Q)
    (ship : Ship) (body : Body) :
  lap_timer_ok ship /\ all_seconds (laptimes ship) ->
  lap_timer_ok (next_ship map dt st ship body).2
  /\ all_seconds (laptimes (next_ship map dt st ship body).2).
Proof.
  intros [Hok Hall]. split; [by apply next_ship_ok|].
  assert (all_seconds (timed dt ship)) as Htimed.
  { unfold timed. destruct (negb (hasFinishedRace ship)); [|done].
    destruct Hok as (Hpos & Hlast & _). by apply add_laptime_seconds. }
  destruct (next_ship_laptimes map dt st ship body) as [-> | ->]; [done|].
  intros i x Hx. apply lookup_app_Some in Hx as [Hx | [_ Hx]].
  - by apply (Htimed i).
  - apply list_lookup_singleton_Some in Hx as [_ <-]. by eexists.
Qed.

(** X19. In every turn reached from a turn without vessels, the lap count
    of a vessel never runs ahead of its lap timer ([lap <= currentLaptime])
    and every entry of its lap times is a number: no NaN and no hole ever
    gets into [laptimes], and the entry being timed is a number. *)
Theorem reachable_clock (t : Turn) (i : nat) (ship : Ship) :
  reachable t ->
  js_get (ships t) i = Some ship ->
  lap ship <= currentLaptime ship
  /\ all_seconds (laptimes ship)
  /\ exists q, laptimes ship !! Z.to_nat (currentLaptime ship) = Some (Seconds q).
Proof.
  intros Hreach Hship.
  destruct (reachable_vessels
              (fun s => lap_timer_ok s /\ all_seconds (laptimes s))) with
    (t := t) (i := i) (ship := ship) as [(Hpos & Hlast & Hlap) Hall]; try done.
  - intros sev body. split; [apply spawn_ship_ok|].
    intros [|j] x Hx; [|done]. injection Hx as <-. by eexists.
  - intros j s. split; [apply reset_ship_ok|].
    intros [|k] x Hx; [|done]. injection Hx as <-. by eexists.
  - intros map dt st s body. apply next_ship_seconds.
  - split_and!; [done | done |].
    destruct (lookup_lt_is_Some_2 (laptimes ship) (Z.to_nat (currentLaptime ship)))
      as [x Hx]; [lia|].
    destruct (Hall _ _ Hx) as [q ->]. by exists q.
Qed.

End ClockExtras.

Lemma reachable_clock_witness :
  exists t ship,
    first_turn = Some t
    /\ js_get (ships t) 0 = Some ship
    /\ lap ship <= currentLaptime ship
    /\ laptimes ship !! 0%nat = Some (Seconds (0 + 16 / 1000)%Q).
Proof.
  assert (exists t ship, first_turn = Some t /\ js_get (ships t) 0 = Some ship
                         /\ laptimes ship !! 0%nat
                            = Some (Seconds (0 + 16 / 1000)%Q))
    as (t & ship & Hfirst & Hship & Hzero).
  { do 2 eexists. split_and!; vm_compute; reflexivity. }
  exists t, ship.
  destruct (@reachable_clock example_constants example_methods
              example_cells example_physics t 0%nat ship) as (Hlap & _ & _).
  - eapply reachable_evolve; [|exact Hfirst].
    apply reachable_addServerEvent, reachable_new.
  - exact Hship.
  - by split_and!.
Defined.

(** ** Reserving a slot, queueing the spawn and running the tick *)

Lemma working_ships_vacant (t : Turn) (k : nat) :
  slot_free t k -> js_get (working_ships t) k = None.
Proof.
  intros [Hget Hq]. unfold working_ships, consume_server_events.
  assert (forall sev, sev ∈ serverEvents t ->
                      sev_type sev = SPAWN_PLAYER -> sev_val sev <> k) as Hno.
  { intros sev Hin Hty Hval. apply Hq. by exists sev. }
  clear Hq. revert Hget Hno. generalize (@nil (option Body)).
  generalize (ships t) as ships0.
  induction (serverEvents t) as [|sev sevs IH]; intros ships0 bodies0 Hget Hno;
    [done|].
  cbn [foldl]. unfold consume_server_event at 2.
  destruct (sev_type sev) eqn:Hty; apply IH.
  - rewrite js_get_set_ne; [done|]. apply Hno; [left | done].
  - intros sev' Hin. apply Hno. by right.
  - destruct (decide (sev_val sev = k)) as [->|Hne].
    + apply js_get_delete_eq.
    + by rewrite js_get_delete_ne.
  - intros sev' Hin. apply Hno. by right.
Qed.

Section ReserveExtras.
Context `{Constants, ShipMethods, TrackCells, Physics}.

(** X20. Reserving, queueing and running the tick displaces nobody: when a
    SPAWN_PLAYER event for the slot [getFreeShipSlot] returned is queued,
    the slot was vacant among the working ships, the turn [evolve] returns
    holds the new player there, and every other slot holds the player it
    would hold without the event. *)
Theorem reserve_spawn_evolve (t : Turn) (map : Track) (world : World)
    (bodies : list (option Body)) (dt : Q) (sev : ServerEvent) (k : nat) :
  getFreeShipSlot t = Some k ->
  sev_type sev = SPAWN_PLAYER ->
  sev_val sev = k ->
  exists t', evolve (addServerEvent t [sev]).1 map world bodies dt = Some t'
    /\ js_get (working_ships t) k = None
    /\ username <$> js_get (ships t') k = Some (sev_username sev)
    /\ forall j, j <> k ->
         username <$> js_get (ships t') j
         = username <$> js_get (working_ships t) j.
Proof.
  intros Hk Hty Hval.
  apply getFreeShipSlot_iff in Hk as [Hfree _].
  pose proof (working_ships_addServerEvent t sev) as Hwork.
  unfold consume_server_event in Hwork. rewrite Hty, Hval in Hwork.
  cbn [fst] in Hwork.
  assert (forall j, exists t',
            evolve (addServerEvent t [sev]).1 map world bodies dt = Some t'
            /\ username <$> js_get (ships t') j
               = username <$> js_get (js_set (working_ships t) k
                                 (spawn_ship sev (new_Body (positionForShipId k)))) j)
    as Hall.
  { intros j.
    destruct (evolve_keeps_identity_aux (addServerEvent t [sev]).1 map world
                bodies dt j) as (t' & Hev & Hname & _).
    exists t'. by rewrite <- Hwork. }
  destruct (Hall k) as (t' & Hev & Hname).
  exists t'. split_and!; [done | by apply working_ships_vacant | |].
  - by rewrite Hname, js_get_set_eq.
  - intros j Hj. destruct (Hall j) as (t'' & Hev' & Hname').
    rewrite Hev in Hev'. injection Hev' as <-.
    rewrite Hname'. by rewrite js_get_set_ne.
Qed.

(** [ships.every] holds when every live ship of the list has finished. *)
Lemma every_finished_true (l : list (option Ship)) :
  (forall i ship, js_get l i = Some ship -> hasFinishedRace ship = true) ->
  every_finished l = true.
Proof.
  intros Hall. unfold every_finished. apply forallb_forall.
  intros os Hin. destruct os as [ship|]; [|done].
  apply list_elem_of_In, list_elem_of_lookup in Hin as [i Hi].
  apply (Hall i). by apply js_get_Some.
Qed.

(** X21. With no vessel left, the finish countdown ends at once: a turn in
    phase FINISH_COUNTDOWN whose working ships hold no vessel is followed by
    RESULTS_SCREEN with countdown RESULTS_SCREEN_S, whatever its countdown
    was. *)
Theorem evolve_deserted_countdown (t : Turn) (map : Track) (world : World)
    (bodies : list (option Body)) (dt : Q) :
  state t = FINISH_COUNTDOWN ->
  (forall i, js_get (working_ships t) i = None) ->
  exists t', evolve t map world bodies dt = Some t'
    /\ state t' = RESULTS_SCREEN
    /\ counter t' = RESULTS_SCREEN_S.
Proof.
  intros Hstate Hnone.
  destruct (detection_input_total t world bodies dt)
    as (ships3 & stepped & Hdet & _ & Hships).
  destruct (evolve_slot t map world bodies dt ships3 stepped (state t, counter t) Hdet)
    as (t' & Hev & _ & Hphase).
  exists t'. split; [done|]. cbv zeta in Hphase.
  pose proof (next_ships_from_state map dt stepped 0 (state t, counter t) ships3)
    as Hst.
  destruct Hst as [Hst | [Hin _]]; [|simpl in Hin; congruence].
  rewrite Hst in Hphase. simpl in Hphase. rewrite Hstate in Hphase.
  rewrite (every_finished_true (detected_ships t map dt ships3 stepped)),
    orb_true_r in Hphase.
  - by injection Hphase as -> ->.
  - intros i ship. unfold detected_ships.
    pose proof (next_ships_from_slots map dt (state t, counter t) stepped 0
                  (state t, counter t) ships3) as (_ & _ & Hleft).
    rewrite Hleft. rewrite decide_True by lia.
    assert (js_get ships3 i = None) as ->
      by (rewrite Hships, Hnone; done).
    by destruct (js_get stepped (i - 0)).
Qed.

End ReserveExtras.

Lemma reserve_spawn_evolve_witness :
  getFreeShipSlot busy_turn = Some 3%nat
  /\ exists t',
       example_evolve
         (addServerEvent busy_turn [mkServerEvent SPAWN_PLAYER 3 "cat" 3]).1 []
       = Some t'
       /\ username <$> js_get (ships t') 3 = Some "cat"%string
       /\ username <$> js_get (ships t') 0 = Some "ann"%string.
Proof.
  split; [reflexivity|].
  destruct (@reserve_spawn_evolve example_constants example_methods
              example_cells example_physics busy_turn example_track tt [] 16
              (mkServerEvent SPAWN_PLAYER 3 "cat" 3) 3 eq_refl eq_refl eq_refl)
    as (t' & Hev & _ & Hnew & Hold).
  exists t'. split_and!; [exact Hev | exact Hnew |].
  rewrite (Hold 0%nat) by lia. reflexivity.
Defined.

Lemma evolve_deserted_countdown_witness :
  exists t', example_evolve deserted_turn [] = Some t'
    /\ state t' = RESULTS_SCREEN
    /\ counter t' = 5%Q.
Proof.
  apply (@evolve_deserted_countdown example_constants example_methods
           example_cells example_physics deserted_turn example_track tt [] 16).
  - reflexivity.
  - intros [|i]; reflexivity.
Defined.

(** ** The bodies handed to the physics step *)

(** The first loop of [evolve] on the slots below [n]. *)
Lemma create_bodies_prefix (ships : list (option Ship))
    (bodies : list (option Body)) (n : nat) (i : nat) :
  js_get (foldl (create_body ships) bodies (seq 0 n)) i =
  if decide (i < n)%nat
  then match js_get ships i with
       | Some _ => Some (match js_get bodies i with
                         | Some body => resetBody body
                         | None => new_Body (102, 52)%Q
                         end)
       | None => js_get bodies i
       end
  else js_get bodies i.
Proof.
  revert i. induction n as [|n IH]; intros i; [done|].
  rewrite seq_S, foldl_app. simpl. unfold create_body at 1.
  destruct (decide (i = n)) as [->|Hne].
  - rewrite decide_True by lia. rewrite (IH n), decide_False by lia.
    destruct (js_get ships n); [|by rewrite IH, decide_False by lia].
    destruct (js_get bodies n); by rewrite js_get_set_eq.
  - assert (js_get (foldl (create_body ships) bodies (seq 0 n)) i =
            if decide (i < S n)%nat
            then match js_get ships i with
                 | Some _ => Some (match js_get bodies i with
                                   | Some body => resetBody body
                                   | None => new_Body (102, 52)%Q
                                   end)
                 | None => js_get bodies i
                 end
            else js_get bodies i) as Hi.
    { rewrite IH. repeat case_decide; try lia; done. }
    destruct (js_get ships n); [|done].
    destruct (js_get (foldl (create_body ships) bodies (seq 0 n)) n);
      by rewrite js_get_set_ne.
Qed.

(** X22. The first loop of [evolve] never touches the body of a slot
    without a live ship; the body of a live ship is reset in place, to the
    origin, at rest and without force, and a live ship without a body gets a
    new one at (102, 52) heading [-Math.PI / 2]. *)
Theorem create_bodies_slot (ships : list (option Ship))
    (bodies : list (option Body)) (i : nat) :
  js_get (create_bodies ships bodies) i =
  match js_get ships i with
  | Some _ => Some (match js_get bodies i with
                    | Some body => mkBody (0, 0)%Q (0, 0)%Q 0%Q (0, 0)%Q 0%Q
                    | None => mkBody (102, 52)%Q (0, 0)%Q (Qopp Math_PI / 2)%Q
                                     (0, 0)%Q 0%Q
                    end)
  | None => js_get bodies i
  end.
Proof.
  unfold create_bodies. rewrite create_bodies_prefix.
  case_decide as Hlt.
  - destruct (js_get ships i); [|done]. by destruct (js_get bodies i).
  - rewrite (js_get_ge ships i), (js_get_ge bodies i) by lia. done.
Qed.

Section BodyExtras.
Context `{Constants, ShipMethods, TrackCells, Physics}.

(** The body the input stage hands on does not depend on the body it
    found: "init / reset props for determinism" overwrites all of it. *)
Lemma drive_any_body (state : GameState) (playerEvents : list GameEvent)
    (ship : Ship) (body body' : Body) :
  (drive state playerEvents ship body).2 = (drive state playerEvents ship body').2.
Proof. reflexivity. Qed.

(** X23. No state of the body pool leaks into a tick: for a live working
    vessel, the body [evolve] hands to the physics step (its position,
    velocity, angle, force and angular force) is the same for any two pools
    [evolve] is called with, whatever they hold in the slot. *)
Theorem prepare_forgets_pool (t : Turn) (bodies bodies' : list (option Body))
    (i : nat) (ship : Ship) :
  js_get (working_ships t) i = Some ship ->
  exists ships3 bodies3 ships3' bodies3' body3,
    prepare t bodies = Some (ships3, bodies3)
    /\ prepare t bodies' = Some (ships3', bodies3')
    /\ js_get bodies3 i = Some body3
    /\ js_get bodies3' i = Some body3.
Proof.
  intros Hship.
  destruct (prepare_spec t bodies) as (ships3 & bodies3 & Hprep & _ & _ & Hb).
  destruct (prepare_spec t bodies') as (ships3' & bodies3' & Hprep' & _ & _ & Hb').
  destruct (Hb i ship Hship) as [body Hbody].
  destruct (Hb' i ship Hship) as [body' Hbody'].
  rewrite (drive_any_body _ _ ship body' body) in Hbody'.
  eexists ships3, bodies3, ships3', bodies3', _.
  split_and!; [done | done | exact Hbody | exact Hbody'].
Qed.

End BodyExtras.

Lemma prepare_forgets_pool_witness :
  exists ships3 bodies3 ships3' bodies3' body3,
    @prepare example_constants example_methods example_physics turning_turn []
    = Some (ships3, bodies3)
    /\ @prepare example_constants example_methods example_physics turning_turn
         [Some (mkBody (7, 7)%Q (1, 1)%Q 1%Q (9, 9)%Q 2%Q)]
       = Some (ships3', bodies3')
    /\ js_get bodies3 0 = Some body3
    /\ js_get bodies3' 0 = Some body3.
Proof.
  exact (@prepare_forgets_pool example_constants example_methods
           example_physics turning_turn []
           [Some (mkBody (7, 7)%Q (1, 1)%Q 1%Q (9, 9)%Q 2%Q)]
           0%nat turning_ship eq_refl).
Defined.

(** ** How high the reserved slot can be *)

Lemma filter_ext_elem {A : Type} (P Q : A -> Prop)
    `{!forall x, Decision (P x)} `{!forall x, Decision (Q x)} (l : list A) :
  (forall x, x ∈ l -> (P x <-> Q x)) -> filter P l = filter Q l.
Proof.
  induction l as [|x l IH]; intros Hext; [done|].
  rewrite !filter_cons.
  rewrite IH by (intros y Hy; apply Hext; by right).
  pose proof (Hext x (list_elem_of_here x l)) as Hx.
  destruct (decide (P x)), (decide (Q x)); tauto || done.
Qed.

(** The live slots of a list of ships are as many as its live vessels. *)
Lemma live_slots_length (ships : list (option Ship)) :
  length (filter (fun j => is_Some (js_get ships j)) (seq 0 (length ships)))
  = live_count ships.
Proof.
  unfold live_count. induction ships as [|o ships IH] using rev_ind; [done|].
  rewrite length_app. simpl. rewrite Nat.add_1_r, seq_S, !filter_app, !length_app.
  simpl.
  rewrite (filter_ext_elem _ (fun j => is_Some (js_get ships j))).
  - rewrite IH. f_equal. rewrite !filter_cons, !filter_nil.
    assert (js_get (ships ++ [o]) (length ships) = o) as Hlast.
    { unfold js_get. rewrite lookup_app_r by lia.
      by replace (length ships - length ships)%nat with 0%nat by lia. }
    rewrite Hlast. by destruct (decide (is_Some o)), (decide (is_Some o)).
  - intros j Hj. apply elem_of_seq in Hj. unfold js_get.
    by rewrite lookup_app_l by lia.
Qed.

(** X24. The slot [getFreeShipSlot] returns is at most the number of live
    vessels plus the number of queued SPAWN_PLAYER events. *)
Theorem getFreeShipSlot_bound (t : Turn) (k : nat) :
  getFreeShipSlot t = Some k ->
  (k <= live_count (ships t) + spawn_count (serverEvents t))%nat.
Proof.
  intros Hk. apply getFreeShipSlot_iff in Hk as [_ Hbelow].
  set (live := fun j => is_Some (js_get (ships t) j)).
  assert (length (filter live (seq 0 k)) <= live_count (ships t))%nat as Hlive.
  { rewrite <- live_slots_length. apply submseteq_length, NoDup_submseteq.
    - apply NoDup_filter, NoDup_seq.
    - intros j Hj. apply list_elem_of_filter in Hj as [[s Hs] _].
      apply list_elem_of_filter. split; [by exists s|].
      apply elem_of_seq. apply js_get_lt in Hs. lia. }
  assert (length (filter (fun j => ~ live j) (seq 0 k))
          <= spawn_count (serverEvents t))%nat as Hspawn.
  { unfold spawn_count.
    rewrite <- (length_fmap sev_val
                  (filter (fun sev => sev_type sev = SPAWN_PLAYER) (serverEvents t))).
    apply submseteq_length, NoDup_submseteq.
    - apply NoDup_filter, NoDup_seq.
    - intros j Hj. apply list_elem_of_filter in Hj as [Hdead Hj].
      apply elem_of_seq in Hj.
      assert (spawn_queued t j) as (sev & Hin & Hty & Hval).
      { destruct (slot_taken t (reservedSlots t) j) eqn:Htaken.
        - apply slot_taken_spec in Htaken as [Hlive' | Hq]; [|done].
          by destruct Hdead.
        - apply slot_taken_false in Htaken. destruct (Hbelow j); [lia | done]. }
      apply list_elem_of_fmap. exists sev. split; [done|].
      by apply list_elem_of_filter. }
  pose proof (filter_app_complement live (seq 0 k)) as Hperm.
  apply Permutation_length in Hperm.
  rewrite length_app, length_seq in Hperm. lia.
Qed.

Lemma getFreeShipSlot_bound_witness :
  getFreeShipSlot busy_turn = Some 3%nat
  /\ (3 <= live_count (ships busy_turn) + spawn_count (serverEvents busy_turn))%nat.
Proof.
  split; [reflexivity|].
  exact (getFreeShipSlot_bound busy_turn 3 eq_refl).
Defined.
